(** * An expiring in-memory key-value cache (package [cache], cache_mutex.go)

    The cache is a Go map from string keys to items guarded by one
    read-write mutex.  The embedding below keeps the shape of the source:

    - the map [items] is a [gmap string (Item T)];
    - every method is a computation in a small state-and-trace monad [M]:
      it receives the cache, returns its result and the new cache, and logs
      the mutex operations and the calls of the eviction callback it makes;
    - [time.Now().UnixNano()] is an explicit argument [now] of every method
      that reads the clock (one argument per reading);
    - the iteration order of [range c.items], which Go leaves unspecified,
      is an explicit argument [order] of [DeleteExpired]. *)

From stdpp Require Import gmap strings list fin_maps.
From Stdlib Require Import ZArith Lia.

Local Open Scope Z_scope.

(** ** Fixed-width integers *)

Module Fixed.

(** The width of [int], [uint] and [uintptr] on the platform. *)
Inductive WordSize := W32 | W64.

Definition word_bits (ws : WordSize) : Z :=
  match ws with W32 => 32 | W64 => 64 end.

(** The integer kinds accepted by the [Numeric] constraint
    ([constraints.Integer]); the floating-point kinds are not modelled. *)
Inductive IntKind :=
| KInt8 | KInt16 | KInt32 | KInt64
| KUint8 | KUint16 | KUint32 | KUint64
| KInt (ws : WordSize) | KUint (ws : WordSize) | KUintptr (ws : WordSize).

Definition bits (k : IntKind) : Z :=
  match k with
  | KInt8 | KUint8 => 8
  | KInt16 | KUint16 => 16
  | KInt32 | KUint32 => 32
  | KInt64 | KUint64 => 64
  | KInt ws | KUint ws | KUintptr ws => word_bits ws
  end.

Definition signed (k : IntKind) : bool :=
  match k with
  | KInt8 | KInt16 | KInt32 | KInt64 | KInt _ => true
  | _ => false
  end.

Definition wrap_unsigned (w z : Z) : Z := z mod 2 ^ w.

Definition wrap_signed (w z : Z) : Z :=
  (z + 2 ^ (w - 1)) mod 2 ^ w - 2 ^ (w - 1).

Definition wrap (k : IntKind) (z : Z) : Z :=
  if signed k then wrap_signed (bits k) z else wrap_unsigned (bits k) z.

Definition min_value (k : IntKind) : Z :=
  if signed k then - 2 ^ (bits k - 1) else 0.

Definition max_value (k : IntKind) : Z :=
  if signed k then 2 ^ (bits k - 1) - 1 else 2 ^ bits k - 1.

(** A value of kind [k]; the arithmetic re-normalises every result. *)
Record fixed (k : IntKind) := Fix { fval : Z }.
Arguments Fix {k} _.
Arguments fval {k} _.

Definition in_range (k : IntKind) (z : Z) : Prop :=
  min_value k <= z <= max_value k.

(** What saturating arithmetic would give instead; used for comparison only. *)
Definition saturate (k : IntKind) (z : Z) : Z :=
  Z.max (min_value k) (Z.min (max_value k) z).

End Fixed.

Export Fixed.

Abbreviation int8 := (fixed KInt8).
Abbreviation uint8 := (fixed KUint8).
Abbreviation int64 := (fixed KInt64).

(** The interface of a value type that Increment and Decrement accept:
    Go's [+] and [-] at that type. *)
Class Numeric (T : Type) := {
  num_add : T -> T -> T;
  num_sub : T -> T -> T
}.

#[export] Instance fixed_Numeric (k : IntKind) : Numeric (fixed k) := {|
  num_add a b := Fix (wrap k (fval a + fval b));
  num_sub a b := Fix (wrap k (fval a - fval b))
|}.

(** Go's zero value of a type ([var ret T]). *)
Class Zero (T : Type) := zero : T.

#[export] Instance fixed_Zero (k : IntKind) : Zero (fixed k) := Fix 0.
#[export] Instance Z_Zero : Zero Z := 0.
#[export] Instance string_Zero : Zero string := EmptyString.

(** ** Time *)

(** [time.Duration] sentinels. *)
Definition NoExpiration : Z := -1.
Definition DefaultExpiration : Z := 0.

(** [time.Now().Add(d).UnixNano()] when the clock reads [now]: an int64 count
    of nanoseconds, which wraps when the instant is past the year 2262. *)
Definition Add_UnixNano (now d : Z) : Z := wrap_signed 64 (now + d).

(** ** Items *)

Record Item (T : Type) := mkItem { Object : T; Expiration : Z }.
Arguments mkItem {T} _ _.
Arguments Object {T} _.
Arguments Expiration {T} _.

(** [func (item *Item[T]) Expired() bool] *)
Definition Expired {T} (item : Item T) (now : Z) : bool :=
  if Expiration item =? 0 then false else now >? Expiration item.

(** The test that Get, get, DeleteExpired and Items inline:
    [item.Expiration > 0 && now > item.Expiration]. *)
Definition expired_inline {T} (item : Item T) (now : Z) : bool :=
  (Expiration item >? 0) && (now >? Expiration item).

(** ** The cache *)

Section Cache.

Context {T : Type}.
(** The type of eviction callbacks, [func(string, *T)]. *)
Context {F : Type}.

Record cache := mkCache {
  defaultExpiration : Z;
  items : gmap string (Item T);
  onEvicted : option F
}.

(** What a method does besides changing the cache. *)
Inductive Event :=
| EvLock                                  (* c.mu.Lock() *)
| EvUnlock                                (* c.mu.Unlock() *)
| EvRLock                                 (* c.mu.RLock() *)
| EvRUnlock                               (* c.mu.RUnlock() *)
| EvEvicted (f : F) (k : string) (v : T)  (* c.onEvicted(k, &v) *)
| EvNilCall.                              (* call of a nil func: panic *)

(** *** The monad of methods *)

Definition M (A : Type) : Type := cache -> A * cache * list Event.

Definition ret {A} (a : A) : M A := fun c => (a, c, []).

Definition bind {A B} (m : M A) (f : A -> M B) : M B := fun c =>
  let r1 := m c in
  let r2 := f r1.1.1 r1.1.2 in
  (r2.1.1, r2.1.2, r1.2 ++ r2.2).

Definition result {A} (r : A * cache * list Event) : A := r.1.1.
Definition state {A} (r : A * cache * list Event) : cache := r.1.2.
Definition trace {A} (r : A * cache * list Event) : list Event := r.2.

Definition emit (e : Event) : M unit := fun c => (tt, c, [e]).
Definition read : M cache := fun c => (c, c, []).
Definition write_items (m : gmap string (Item T)) : M unit := fun c =>
  (tt, mkCache (defaultExpiration c) m (onEvicted c), []).
Definition write_onEvicted (f : option F) : M unit := fun c =>
  (tt, mkCache (defaultExpiration c) (items c) f, []).

Definition Lock : M unit := emit EvLock.
Definition Unlock : M unit := emit EvUnlock.
Definition RLock : M unit := emit EvRLock.
Definition RUnlock : M unit := emit EvRUnlock.

(** [c.onEvicted(k, v)] *)
Definition call_onEvicted (k : string) (v : T) : M unit := fun c =>
  match onEvicted c with
  | Some f => (tt, c, [EvEvicted f k v])
  | None => (tt, c, [EvNilCall])
  end.

End Cache.

Arguments cache : clear implicits.
Arguments Event : clear implicits.
Arguments M : clear implicits.

Declare Scope cache_scope.
Delimit Scope cache_scope with cache.
Notation "x <- m ;; k" := (bind m (fun x => k))
  (at level 100, m at next level, right associativity) : cache_scope.
Notation "m ;;; k" := (bind m (fun _ => k))
  (at level 100, right associativity) : cache_scope.

Local Open Scope cache_scope.

(** ** Errors *)

(** Go's [error] built by [fmt.Errorf]: [None] is [nil]. *)
Definition error : Type := option string.

(** [fmt.Errorf("Item %s already exists", k)]: the spec's KeyExists. *)
Definition KeyExists (k : string) : string :=
  ("Item " +:+ k +:+ " already exists")%string.

(** [fmt.Errorf("Item %s doesn't exist", k)]: KeyNotFound of Replace. *)
Definition KeyNotFound_Replace (k : string) : string :=
  ("Item " +:+ k +:+ " doesn't exist")%string.

(** [fmt.Errorf("Item %s not found", k)]: KeyNotFound of Increment. *)
Definition KeyNotFound_Increment (k : string) : string :=
  ("Item " +:+ k +:+ " not found")%string.

(** [fmt.Errorf("Item not found")]: KeyNotFound of Decrement. *)
Definition KeyNotFound_Decrement : string := "Item not found"%string.

(** ** Methods of [cache[T]] *)

Section Methods.

Context {T : Type} `{!Zero T} {F : Type}.

Local Abbreviation cache := (cache T F).
Local Abbreviation M := (M T F).
Local Abbreviation Event := (Event T F).

(** The expiration instant that Set and set compute from the duration. *)
Definition expiration_of (de d now : Z) : Z :=
  let d := if d =? DefaultExpiration then de else d in
  if d >? 0 then Add_UnixNano now d else 0.

(** [func (c *cache[T]) set(k string, x T, d time.Duration)] *)
Definition set (k : string) (x : T) (d now : Z) : M unit :=
  c <- read ;;
  let e := expiration_of (defaultExpiration c) d now in
  write_items (<[k := mkItem x e]> (items c)).

(** [func (c *cache[T]) Set(k string, x T, d time.Duration)]
    ([Set] is a keyword here, hence the underscore) *)
Definition Set_ (k : string) (x : T) (d now : Z) : M unit :=
  c <- read ;;
  let e := expiration_of (defaultExpiration c) d now in
  Lock ;;;
  c <- read ;;
  write_items (<[k := mkItem x e]> (items c)) ;;;
  Unlock.

(** [func (c *cache[T]) SetDefault(k string, x T)] *)
Definition SetDefault (k : string) (x : T) (now : Z) : M unit :=
  Set_ k x DefaultExpiration now.

(** [func (c *cache[T]) get(k string)], returning a pointer and a flag *)
Definition get (k : string) (now : Z) : M (option T * bool) :=
  c <- read ;;
  match items c !! k with
  | None => ret (None, false)
  | Some item =>
      if Expiration item >? 0 then
        if now >? Expiration item then ret (Some (Object item), false)
        else ret (Some (Object item), true)
      else ret (Some (Object item), true)
  end.

(** [func (c *cache[T]) Get(k string)], returning a pointer and a flag *)
Definition Get (k : string) (now : Z) : M (option T * bool) :=
  RLock ;;;
  c <- read ;;
  r <- match items c !! k with
       | None => ret (None, false)
       | Some item =>
           if Expiration item >? 0 then
             if now >? Expiration item then ret (None, false)
             else ret (Some (Object item), true)
           else ret (Some (Object item), true)
       end ;;
  RUnlock ;;;
  ret r.

(** [func (c *cache[T]) Add(k string, x T, d time.Duration) error];
    [now_get] is the clock read by [get], [now_set] the one read by [set]. *)
Definition Add (k : string) (x : T) (d now_get now_set : Z) : M error :=
  Lock ;;;
  r <- get k now_get ;;
  if r.2 then
    Unlock ;;; ret (Some (KeyExists k))
  else
    set k x d now_set ;;;
    Unlock ;;; ret None.

(** [func (c *cache[T]) Replace(k string, x T, d time.Duration) error] *)
Definition Replace (k : string) (x : T) (d now_get now_set : Z) : M error :=
  Lock ;;;
  r <- get k now_get ;;
  if negb r.2 then
    Unlock ;;; ret (Some (KeyNotFound_Replace k))
  else
    set k x d now_set ;;;
    Unlock ;;; ret None.

(** [func (c *cache[T]) delete(k string)], returning a pointer to a copy
    of the removed value (to the zero value when there is none) and a flag *)
Definition delete_ (k : string) : M (T * bool) :=
  c <- read ;;
  match items c !! k with
  | Some v => write_items (delete k (items c)) ;;; ret (Object v, true)
  | None => ret (zero, false)
  end.

(** [func (c *cache[T]) Delete(k string)] *)
Definition Delete (k : string) : M unit :=
  Lock ;;;
  r <- delete_ k ;;
  Unlock ;;;
  c <- read ;;
  if bool_decide (is_Some (onEvicted c)) && r.2 then call_onEvicted k r.1
  else ret tt.

(** One iteration of the loop of DeleteExpired on the pair [(k, v)] that
    [range] yields; returns the grown [evictedItems]. *)
Definition sweep_step (now : Z) (k : string) (v : Item T)
    (evictedItems : list (string * T)) : M (list (string * T)) :=
  if (Expiration v >? 0) && (now >? Expiration v) then
    r <- delete_ k ;;
    c <- read ;;
    if bool_decide (is_Some (onEvicted c)) && r.2
    then ret (evictedItems ++ [(k, r.1)])
    else ret evictedItems
  else ret evictedItems.

(** [for k, v := range c.items { ... }] visiting the keys in [order]; a key
    whose entry is gone when its turn comes is not produced. *)
Fixpoint sweep (now : Z) (order : list string)
    (evictedItems : list (string * T)) : M (list (string * T)) :=
  match order with
  | [] => ret evictedItems
  | k :: rest =>
      c <- read ;;
      ev <- match items c !! k with
            | Some v => sweep_step now k v evictedItems
            | None => ret evictedItems
            end ;;
      sweep now rest ev
  end.

(** [for _, v := range evictedItems { c.onEvicted(v.key, v.value) }] *)
Fixpoint notify (evictedItems : list (string * T)) : M unit :=
  match evictedItems with
  | [] => ret tt
  | kv :: rest => call_onEvicted kv.1 kv.2 ;;; notify rest
  end.

(** [func (c *cache[T]) DeleteExpired()] *)
Definition DeleteExpired (now : Z) (order : list string) : M unit :=
  Lock ;;;
  evictedItems <- sweep now order [] ;;
  Unlock ;;;
  notify evictedItems.

(** [func (c *cache[T]) OnEvicted(f func(string, *T))] *)
Definition OnEvicted (f : option F) : M unit :=
  Lock ;;; write_onEvicted f ;;; Unlock.

(** [func (c *cache[T]) ItemCount() int] *)
Definition ItemCount : M nat :=
  RLock ;;;
  c <- read ;;
  let n := size (items c) in
  RUnlock ;;;
  ret n.

(** [func (c *cache[T]) Flush()] *)
Definition Flush : M unit :=
  Lock ;;; write_items ∅ ;;; Unlock.

(** [func newCache[T any](de time.Duration, m map[string]Item[T]) *cache[T]] *)
Definition newCache (de : Z) (m : gmap string (Item T)) : cache :=
  let de := if de =? 0 then -1 else de in
  mkCache de m None.

(** DeleteExpired run any number of times, as the janitor does on every
    tick: each run has its own clock reading and iteration order. *)
Fixpoint sweeps (runs : list (Z * list string)) (c : cache) : cache :=
  match runs with
  | [] => c
  | run :: rest => sweeps rest (state (DeleteExpired run.1 run.2 c))
  end.

(** Does [k] have a live entry when the clock reads [now]: one that is in
    the map and that the inlined test does not find expired? *)
Definition live (c : cache) (k : string) (now : Z) : bool :=
  match items c !! k with
  | Some item => negb (expired_inline item now)
  | None => false
  end.

(** The entries that a sweep removes, and their values, in visiting order. *)
Definition expired_entries (m : gmap string (Item T)) (now : Z)
    (order : list string) : list (string * T) :=
  omap (fun k => match m !! k with
                 | Some v => if expired_inline v now
                             then Some (k, Object v) else None
                 | None => None
                 end) order.

(** [func newNumericCache[T Numeric](de time.Duration, m map[string]Item[T])];
    a [numericCache[T]] is the [cache[T]] it embeds. *)
Definition newNumericCache (de : Z) (m : gmap string (Item T)) : cache :=
  let de := if de =? 0 then -1 else de in
  mkCache de m None.

(** [func (c *cache[T]) GetWithExpiration(k string)], returning a pointer,
    a [time.Time] and a flag.  The [time.Time] is [None] for the zero value
    [time.Time{}] and [Some e] for [time.Unix(0, e)]. *)
Definition GetWithExpiration (k : string) (now : Z)
    : M (option T * option Z * bool) :=
  RLock ;;;
  c <- read ;;
  r <- match items c !! k with
       | None => ret (None, None, false)
       | Some item =>
           if Expiration item >? 0 then
             if now >? Expiration item then ret (None, None, false)
             else ret (Some (Object item), Some (Expiration item), true)
           else ret (Some (Object item), None, true)
       end ;;
  RUnlock ;;;
  ret r.

(** The loop of Items: [range] over [src] in [order], copying into [m] the
    entries that the inlined test does not skip. *)
Fixpoint copy_unexpired (now : Z) (order : list string)
    (src m : gmap string (Item T)) : gmap string (Item T) :=
  match order with
  | [] => m
  | k :: rest =>
      match src !! k with
      | Some v =>
          if Expiration v >? 0 then
            if now >? Expiration v then copy_unexpired now rest src m
            else copy_unexpired now rest src (<[k := v]> m)
          else copy_unexpired now rest src (<[k := v]> m)
      | None => copy_unexpired now rest src m
      end
  end.

(** [func (c *cache[T]) Items() map[string]Item[T]] *)
Definition Items (now : Z) (order : list string) : M (gmap string (Item T)) :=
  RLock ;;;
  c <- read ;;
  let m := copy_unexpired now order (items c) ∅ in
  RUnlock ;;;
  ret m.

(** What the [select] of the janitor receives: a tick of the ticker (with
    the clock reading and the iteration order of the sweep it triggers) or
    the stop signal. *)
Inductive Signal :=
| Tick (now : Z) (order : list string)
| Stop.

(** [func (j *janitor[T]) Run(c AnyCacher[T])] on the signals it receives, in
    the order it receives them; when the list ends the loop is waiting. *)
Fixpoint Run (signals : list Signal) : M unit :=
  match signals with
  | [] => ret tt
  | Tick now order :: rest => DeleteExpired now order ;;; Run rest
  | Stop :: _ => ret tt
  end.

(** Are all the ticks among the signals at clock readings not later than
    [later]? *)
Definition ticks_by (later : Z) (signals : list Signal) : bool :=
  forallb (fun s => match s with
                    | Tick now _ => now <=? later
                    | Stop => true
                    end) signals.

(** *** Methods of [numericCache[T]] *)

Context `{!Numeric T}.

(** [func (c *numericCache[T]) Increment(k string, n T)],
    returning a pointer (nil on failure) and an error *)
Definition Increment (k : string) (n : T) (now : Z) : M (option T * error) :=
  Lock ;;;
  c <- read ;;
  match items c !! k with
  | Some v =>
      if Expired v now then
        Unlock ;;; ret (None, Some (KeyNotFound_Increment k))
      else
        let nv := num_add (Object v) n in
        write_items (<[k := mkItem nv (Expiration v)]> (items c)) ;;;
        Unlock ;;; ret (Some nv, None)
  | None => Unlock ;;; ret (None, Some (KeyNotFound_Increment k))
  end.

(** [func (c *numericCache[T]) Decrement(k string, n T)],
    returning a pointer (nil on failure) and an error *)
Definition Decrement (k : string) (n : T) (now : Z) : M (option T * error) :=
  Lock ;;;
  c <- read ;;
  match items c !! k with
  | Some v =>
      if Expired v now then
        Unlock ;;; ret (None, Some KeyNotFound_Decrement)
      else
        let nv := num_sub (Object v) n in
        write_items (<[k := mkItem nv (Expiration v)]> (items c)) ;;;
        Unlock ;;; ret (Some nv, None)
  | None => Unlock ;;; ret (None, Some KeyNotFound_Decrement)
  end.

(** *** Observations on traces *)

(** Does the trace call the eviction callback only while the mutex is not
    held?  [held] is the state of the mutex before the trace. *)
Fixpoint callbacks_unlocked (held : bool) (tr : list Event) : bool :=
  match tr with
  | [] => true
  | EvLock :: tr | EvRLock :: tr => callbacks_unlocked true tr
  | EvUnlock :: tr | EvRUnlock :: tr => callbacks_unlocked false tr
  | EvEvicted _ _ _ :: tr | EvNilCall :: tr =>
      negb held && callbacks_unlocked held tr
  end.

(** The calls of the eviction callback in a trace, in order. *)
Fixpoint evictions (tr : list Event) : list (string * T) :=
  match tr with
  | [] => []
  | EvEvicted _ k v :: tr => (k, v) :: evictions tr
  | _ :: tr => evictions tr
  end.

End Methods.

(** ** Concrete caches *)

Module Examples.

(** A cache of integers as NewFrom and OnEvicted leave it; callbacks are
    named by a string. *)
Definition seeded : cache Z string :=
  mkCache NoExpiration
    (<["fresh" := mkItem 1 500]>
     (<["stale" := mkItem 2 50]>
      (<["kept" := mkItem 3 0]> ∅)))
    (Some "log"%string).

(** A map holding one entry whose expiration instant is negative. *)
Definition before_epoch : cache Z string :=
  newCache 0 (<["old" := mkItem 1 (-1)]> ∅).

(** An int8 counter at the top of its range. *)
Definition counters : cache int8 string :=
  newCache 0 (<["hits" := mkItem (Fix 127) 0]>
              (<["gone" := mkItem (Fix 5) 50]> ∅)).

Definition bytes : cache uint8 string :=
  newCache 0 (<["b" := mkItem (Fix 0) 0]> ∅).

(** A cache with a default expiration of one minute and three sessions:
    one expiring at 500, one that expired at 50, one that never expires. *)
Definition sessions : cache Z string :=
  mkCache 60000000000
    (<["alice" := mkItem 10 500]>
     (<["bob" := mkItem 20 50]>
      (<["carol" := mkItem 30 0]> ∅)))
    (Some "audit"%string).

(** An int8 gauge with a live entry, and one whose expiration instant lies
    before the epoch. *)
Definition gauges : cache int8 string :=
  newNumericCache 0 (<["load" := mkItem (Fix 100) 0]>
                     (<["ancient" := mkItem (Fix 7) (-5)]> ∅)).

End Examples.

(** * Properties *)

(** Proof steps for the arithmetic of the kinds. *)
Ltac pow2 :=
  repeat match goal with
         | |- context [2 ^ ?e] =>
             let v := eval cbv in (2 ^ e) in change (2 ^ e) with v
         | H : context [2 ^ ?e] |- _ =>
             let v := eval cbv in (2 ^ e) in change (2 ^ e) with v in H
         end.

Ltac by_kind kind :=
  destruct kind as [| | | | | | | |[|]|[|]|[|]];
  unfold in_range, saturate, wrap, wrap_signed, wrap_unsigned,
    min_value, max_value in *;
  cbn [signed bits word_bits] in *; pow2.


Section Facts.

Context {T : Type} `{!Zero T} {F : Type}.

Implicit Types (c : cache T F) (k j : string) (x : T) (now : Z).

Lemma expired_inline_spec (v : Item T) now :
  expired_inline v now = true <-> 0 < Expiration v < now.
Proof.
  unfold expired_inline. rewrite andb_true_iff, !Z.gtb_lt. lia.
Qed.

Lemma Expired_spec (v : Item T) now :
  Expired v now = true <-> Expiration v <> 0 /\ Expiration v < now.
Proof.
  unfold Expired. destruct (Z.eqb_spec (Expiration v) 0) as [E|E].
  - split; [discriminate | tauto].
  - rewrite Z.gtb_lt. tauto.
Qed.

(** The method and the inlined test agree on every expiration instant that
    is not negative; on a negative one only the method reports expiry. *)
Lemma expired_inline_Expired (v : Item T) now :
  expired_inline v now = true -> Expired v now = true.
Proof. rewrite expired_inline_spec, Expired_spec. lia. Qed.

Lemma Expired_expired_inline (v : Item T) now :
  0 <= Expiration v -> Expired v now = expired_inline v now.
Proof.
  intros Hv. apply eq_true_iff_eq.
  rewrite expired_inline_spec, Expired_spec. lia.
Qed.

(** The cache after one iteration of the sweep. *)
Lemma sweep_step_state now k (v : Item T) ev c :
  items c !! k = Some v ->
  state (sweep_step now k v ev c) =
    if expired_inline v now
    then mkCache (defaultExpiration c) (delete k (items c)) (onEvicted c)
    else c.
Proof.
  intros Hk. unfold sweep_step, expired_inline.
  destruct ((Expiration v >? 0) && (now >? Expiration v)); [|reflexivity].
  unfold state, bind, delete_, read. cbn. rewrite Hk. cbn.
  destruct (bool_decide (is_Some (onEvicted c))); reflexivity.
Qed.

Lemma sweep_step_trace now k (v : Item T) ev c :
  trace (sweep_step now k v ev c) = [].
Proof.
  unfold sweep_step.
  destruct ((Expiration v >? 0) && (now >? Expiration v)); [|reflexivity].
  unfold trace, bind, delete_, read. cbn.
  destruct (items c !! k); cbn;
    destruct (bool_decide (is_Some (onEvicted c))); reflexivity.
Qed.

Lemma sweep_step_result now k (v : Item T) ev c :
  items c !! k = Some v ->
  result (sweep_step now k v ev c) =
    if expired_inline v now && bool_decide (is_Some (onEvicted c))
    then ev ++ [(k, Object v)] else ev.
Proof.
  intros Hk. unfold sweep_step, expired_inline.
  destruct ((Expiration v >? 0) && (now >? Expiration v)); [|reflexivity].
  unfold result, bind, delete_, read. cbn. rewrite Hk. cbn.
  destruct (bool_decide (is_Some (onEvicted c))); reflexivity.
Qed.

Lemma result_mk {A} (a : A) c (tr : list (Event T F)) : result (a, c, tr) = a.
Proof. reflexivity. Qed.

Lemma state_mk {A} (a : A) c (tr : list (Event T F)) : state (a, c, tr) = c.
Proof. reflexivity. Qed.

Lemma trace_mk {A} (a : A) c (tr : list (Event T F)) : trace (a, c, tr) = tr.
Proof. reflexivity. Qed.

Lemma result_bind {A B} (m : M T F A) (f : A -> M T F B) c :
  result (bind m f c) = result (f (result (m c)) (state (m c))).
Proof. reflexivity. Qed.

Lemma state_bind {A B} (m : M T F A) (f : A -> M T F B) c :
  state (bind m f c) = state (f (result (m c)) (state (m c))).
Proof. reflexivity. Qed.

Lemma trace_bind {A B} (m : M T F A) (f : A -> M T F B) c :
  trace (bind m f c) = trace (m c) ++ trace (f (result (m c)) (state (m c))).
Proof. reflexivity. Qed.

Lemma call_onEvicted_state k x c : state (call_onEvicted k x c) = c.
Proof. unfold call_onEvicted. destruct (onEvicted c); reflexivity. Qed.

Lemma call_onEvicted_trace k x c :
  trace (call_onEvicted k x c) =
    match onEvicted c with
    | Some f => [EvEvicted f k x]
    | None => [EvNilCall]
    end.
Proof. unfold call_onEvicted. destruct (onEvicted c); reflexivity. Qed.

Lemma sweep_cons now k rest ev c :
  sweep now (k :: rest) ev c =
    let r := match items c !! k with
             | Some v => sweep_step now k v ev c
             | None => (ev, c, [])
             end in
    let r' := sweep now rest (result r) (state r) in
    (result r', state r', trace r ++ trace r').
Proof.
  cbn [sweep]. unfold bind, read, result, state, trace. cbn.
  destruct (items c !! k); reflexivity.
Qed.

Lemma expired_entries_cons (m : gmap string (Item T)) now k rest :
  expired_entries m now (k :: rest) =
    match m !! k with
    | Some v => if expired_inline v now
                then (k, Object v) :: expired_entries m now rest
                else expired_entries m now rest
    | None => expired_entries m now rest
    end.
Proof.
  unfold expired_entries. csimpl.
  destruct (m !! k) as [v|]; [|reflexivity].
  destruct (expired_inline v now); reflexivity.
Qed.

Lemma expired_entries_ext (m m' : gmap string (Item T)) now order :
  (forall j, j ∈ order -> m' !! j = m !! j) ->
  expired_entries m' now order = expired_entries m now order.
Proof.
  induction order as [|k rest IH]; intros Hm; [reflexivity|].
  rewrite !expired_entries_cons, Hm by apply list_elem_of_here.
  rewrite IH by (intros; apply Hm; by apply list_elem_of_further).
  reflexivity.
Qed.

Lemma sweep_trace now order : forall ev c, trace (sweep now order ev c) = [].
Proof.
  induction order as [|k rest IH]; intros ev c; [reflexivity|].
  rewrite sweep_cons. cbn zeta. rewrite trace_mk, IH, app_nil_r.
  destruct (items c !! k); [apply sweep_step_trace | reflexivity].
Qed.

Lemma sweep_frame now order : forall ev c,
  defaultExpiration (state (sweep now order ev c)) = defaultExpiration c /\
  onEvicted (state (sweep now order ev c)) = onEvicted c.
Proof.
  induction order as [|k rest IH]; intros ev c; [split; reflexivity|].
  rewrite sweep_cons. cbn zeta. rewrite state_mk.
  destruct (items c !! k) as [v|] eqn:Hk.
  - destruct (IH (result (sweep_step now k v ev c))
                 (state (sweep_step now k v ev c))) as [-> ->].
    rewrite (sweep_step_state _ _ _ _ _ Hk).
    destruct (expired_inline v now); split; reflexivity.
  - apply IH.
Qed.

(** A sweep removes the visited keys whose entry passes the inlined test
    and keeps every other entry as it is. *)
Lemma sweep_lookup now order : forall ev c j,
  items (state (sweep now order ev c)) !! j =
    match items c !! j with
    | Some v => if bool_decide (j ∈ order) && expired_inline v now
                then None else Some v
    | None => None
    end.
Proof.
  induction order as [|k rest IH]; intros ev c j.
  - cbn. destruct (items c !! j); reflexivity.
  - rewrite sweep_cons. cbn zeta. rewrite state_mk, IH. clear IH.
    destruct (items c !! k) as [v|] eqn:Hk.
    + rewrite (sweep_step_state _ _ _ _ _ Hk).
      destruct (expired_inline v now) eqn:Hv; cbn [items].
      * destruct (decide (j = k)) as [->|Hne].
        -- rewrite lookup_delete_eq, Hk, Hv.
           rewrite bool_decide_eq_true_2 by apply list_elem_of_here.
           reflexivity.
        -- rewrite lookup_delete_ne by done.
           destruct (items c !! j) as [w|]; [|reflexivity].
           rewrite (bool_decide_ext (j ∈ k :: rest) (j ∈ rest))
             by (rewrite elem_of_cons; tauto). reflexivity.
      * destruct (items c !! j) as [w|] eqn:Hj; [|reflexivity].
        destruct (decide (j = k)) as [->|Hne].
        -- assert (w = v) as -> by congruence. rewrite Hv, !andb_false_r.
           reflexivity.
        -- rewrite (bool_decide_ext (j ∈ k :: rest) (j ∈ rest))
             by (rewrite elem_of_cons; tauto). reflexivity.
    + rewrite state_mk.
      destruct (items c !! j) as [w|] eqn:Hj; [|reflexivity].
      rewrite (bool_decide_ext (j ∈ k :: rest) (j ∈ rest)); [reflexivity|].
      assert (j <> k) by congruence. rewrite elem_of_cons. tauto.
Qed.

(** With every key visited at most once, the sweep collects exactly the
    removed entries, provided that a callback is registered. *)
Lemma sweep_result now order : forall ev c,
  NoDup order ->
  result (sweep now order ev c) =
    ev ++ (if bool_decide (is_Some (onEvicted c))
           then expired_entries (items c) now order else []).
Proof.
  induction order as [|k rest IH]; intros ev c Hnd.
  - cbn. destruct (bool_decide _); cbn; by rewrite app_nil_r.
  - apply NoDup_cons in Hnd as [Hk Hnd].
    rewrite sweep_cons. cbn zeta. rewrite result_mk, IH by done. clear IH.
    rewrite expired_entries_cons.
    destruct (items c !! k) as [v|] eqn:Hv.
    + rewrite (sweep_step_state _ _ _ _ _ Hv), (sweep_step_result _ _ _ _ _ Hv).
      destruct (expired_inline v now); cbn [andb].
      * cbn [onEvicted items].
        rewrite (expired_entries_ext (items c))
          by (intros j Hj; apply lookup_delete_ne; congruence).
        destruct (bool_decide _); cbn; [|reflexivity].
        by rewrite <- app_assoc.
      * destruct (bool_decide _); reflexivity.
    + rewrite result_mk, state_mk. reflexivity.
Qed.

Lemma notify_state ev : forall c, state (notify ev c) = c.
Proof.
  induction ev as [|kv ev IH]; intros c; [reflexivity|].
  cbn [notify]. rewrite state_bind, call_onEvicted_state. apply IH.
Qed.

Lemma notify_trace ev : forall c,
  trace (notify ev c) =
    match onEvicted c with
    | Some f => map (fun kv => EvEvicted f kv.1 kv.2) ev
    | None => map (fun _ => EvNilCall) ev
    end.
Proof.
  induction ev as [|kv ev IH]; intros c.
  - cbn. destruct (onEvicted c); reflexivity.
  - cbn [notify].
    rewrite trace_bind, call_onEvicted_state, call_onEvicted_trace, IH.
    destruct (onEvicted c); reflexivity.
Qed.

Lemma DeleteExpired_state now order c :
  state (DeleteExpired now order c) = state (sweep now order [] c).
Proof.
  unfold DeleteExpired. rewrite !state_bind, notify_state. reflexivity.
Qed.

Lemma DeleteExpired_trace now order c :
  trace (DeleteExpired now order c) =
    EvLock :: EvUnlock ::
    match onEvicted c with
    | Some f => map (fun kv => EvEvicted f kv.1 kv.2)
                    (result (sweep now order [] c))
    | None => map (fun _ => EvNilCall) (result (sweep now order [] c))
    end.
Proof.
  unfold DeleteExpired. rewrite !trace_bind, notify_trace.
  change (state (Lock c)) with c.
  change (trace (Lock c)) with [@EvLock T F].
  rewrite sweep_trace.
  change (state (Unlock ?c')) with c'.
  change (trace (Unlock ?c')) with [@EvUnlock T F].
  destruct (sweep_frame now order [] c) as [_ ->]. reflexivity.
Qed.

Lemma DeleteExpired_lookup now order c j :
  items (state (DeleteExpired now order c)) !! j =
    match items c !! j with
    | Some v => if bool_decide (j ∈ order) && expired_inline v now
                then None else Some v
    | None => None
    end.
Proof. rewrite DeleteExpired_state. apply sweep_lookup. Qed.

Lemma sweeps_keep runs : forall c k (v : Item T),
  items c !! k = Some v -> Expiration v <= 0 ->
  items (sweeps runs c) !! k = Some v.
Proof.
  induction runs as [|[now order] runs IH]; intros c k v Hk Hv; [exact Hk|].
  cbn [sweeps fst snd]. apply IH; [|exact Hv].
  rewrite DeleteExpired_lookup, Hk.
  replace (expired_inline v now) with false; [by rewrite andb_false_r|].
  symmetry. apply not_true_iff_false. rewrite expired_inline_spec. lia.
Qed.

Lemma Get_result k now c :
  result (Get k now c) =
    match items c !! k with
    | Some item => if expired_inline item now then (None, false)
                   else (Some (Object item), true)
    | None => (None, false)
    end.
Proof.
  unfold Get, bind, result, RLock, RUnlock, emit, read, expired_inline. cbn.
  destruct (items c !! k) as [item|]; [|reflexivity].
  destruct (Expiration item >? 0); [|reflexivity].
  destruct (now >? Expiration item); reflexivity.
Qed.

Lemma Get_state k now c : state (Get k now c) = c.
Proof.
  unfold Get, bind, state, RLock, RUnlock, emit, read. cbn.
  destruct (items c !! k) as [item|]; [|reflexivity].
  destruct (Expiration item >? 0); [|reflexivity].
  destruct (now >? Expiration item); reflexivity.
Qed.

Lemma Get_trace k now c : trace (Get k now c) = [EvRLock; EvRUnlock].
Proof.
  unfold Get, bind, trace, RLock, RUnlock, emit, read. cbn.
  destruct (items c !! k) as [item|]; [|reflexivity].
  destruct (Expiration item >? 0); [|reflexivity].
  destruct (now >? Expiration item); reflexivity.
Qed.

Lemma get_result k now c :
  result (get k now c) =
    match items c !! k with
    | Some item => (Some (Object item), negb (expired_inline item now))
    | None => (None, false)
    end.
Proof.
  unfold get, bind, result, read, expired_inline. cbn.
  destruct (items c !! k) as [item|]; [|reflexivity].
  destruct (Expiration item >? 0); [|reflexivity].
  destruct (now >? Expiration item); reflexivity.
Qed.

Lemma Set_state k x d now c :
  state (Set_ k x d now c) =
    mkCache (defaultExpiration c)
      (<[k := mkItem x (expiration_of (defaultExpiration c) d now)]> (items c))
      (onEvicted c).
Proof. reflexivity. Qed.

Lemma Set_trace k x d now c : trace (Set_ k x d now c) = [EvLock; EvUnlock].
Proof. reflexivity. Qed.

Lemma live_spec c k now :
  live c k now = true <->
  exists item, items c !! k = Some item /\ ~ 0 < Expiration item < now.
Proof.
  unfold live. destruct (items c !! k) as [item|].
  - rewrite negb_true_iff, <- not_true_iff_false, expired_inline_spec.
    split; [eauto|]. intros (item' & [= <-] & H). exact H.
  - split; [discriminate|]. intros (item' & [=] & _).
Qed.

Lemma get_found k now c : (result (get k now c)).2 = live c k now.
Proof.
  rewrite get_result. unfold live. destruct (items c !! k); reflexivity.
Qed.

Lemma get_state k now c : state (get k now c) = c.
Proof.
  unfold get, bind, state, read. cbn.
  destruct (items c !! k) as [item|]; [|reflexivity].
  destruct (Expiration item >? 0); [|reflexivity].
  destruct (now >? Expiration item); reflexivity.
Qed.

Lemma get_trace k now c : trace (get k now c) = [].
Proof.
  unfold get, bind, trace, read. cbn.
  destruct (items c !! k) as [item|]; [|reflexivity].
  destruct (Expiration item >? 0); [|reflexivity].
  destruct (now >? Expiration item); reflexivity.
Qed.

(** Add and Replace in one piece: the check, then either the error or what
    Set does. *)
Lemma Add_run k x d now_get now_set c :
  Add k x d now_get now_set c =
    if live c k now_get
    then (Some (KeyExists k), c, [EvLock; EvUnlock])
    else (None, state (Set_ k x d now_set c), [EvLock; EvUnlock]).
Proof.
  pose proof (get_found k now_get c) as Hf.
  pose proof (get_state k now_get c) as Hs.
  pose proof (get_trace k now_get c) as Ht.
  unfold Add, bind, result, state, trace in *. cbn in *.
  rewrite Hf, Hs, Ht. destruct (live c k now_get); reflexivity.
Qed.

Lemma Replace_run k x d now_get now_set c :
  Replace k x d now_get now_set c =
    if live c k now_get
    then (None, state (Set_ k x d now_set c), [EvLock; EvUnlock])
    else (Some (KeyNotFound_Replace k), c, [EvLock; EvUnlock]).
Proof.
  pose proof (get_found k now_get c) as Hf.
  pose proof (get_state k now_get c) as Hs.
  pose proof (get_trace k now_get c) as Ht.
  unfold Replace, bind, result, state, trace in *. cbn in *.
  rewrite Hf, Hs, Ht. destruct (live c k now_get); reflexivity.
Qed.

Lemma Delete_items k c : items (state (Delete k c)) = delete k (items c).
Proof.
  unfold Delete, delete_, bind, state, read, call_onEvicted. cbn.
  destruct (items c !! k) as [v|] eqn:Hk; cbn.
  - destruct (onEvicted c); reflexivity.
  - rewrite andb_false_r. cbn. symmetry. by apply delete_id.
Qed.

Lemma Delete_frame k c :
  defaultExpiration (state (Delete k c)) = defaultExpiration c /\
  onEvicted (state (Delete k c)) = onEvicted c.
Proof.
  unfold Delete, delete_, bind, state, read, call_onEvicted. cbn.
  destruct (items c !! k) as [v|]; cbn.
  - destruct (onEvicted c); split; reflexivity.
  - rewrite andb_false_r. split; reflexivity.
Qed.

Lemma Delete_trace k c :
  trace (Delete k c) =
    EvLock :: EvUnlock ::
    match items c !! k, onEvicted c with
    | Some v, Some f => [EvEvicted f k (Object v)]
    | _, _ => []
    end.
Proof.
  unfold Delete, delete_, bind, trace, read, call_onEvicted. cbn.
  destruct (items c !! k) as [v|]; cbn.
  - destruct (onEvicted c); reflexivity.
  - rewrite andb_false_r. reflexivity.
Qed.

Lemma evictions_map (f : F) (evs : list (string * T)) :
  evictions (map (fun kv => EvEvicted f kv.1 kv.2) evs) = evs.
Proof.
  induction evs as [|[k v] evs IH]; [reflexivity|]. cbn. by rewrite IH.
Qed.

Lemma callbacks_unlocked_map (f : F) (evs : list (string * T)) :
  callbacks_unlocked false (map (fun kv => EvEvicted f kv.1 kv.2) evs) = true.
Proof. induction evs as [|[k v] evs IH]; [reflexivity|]. exact IH. Qed.

Lemma expired_entries_not_visited (m : gmap string (Item T)) now order k :
  k ∉ order ->
  filter (fun kv => kv.1 = k) (expired_entries m now order) = [].
Proof.
  induction order as [|j rest IH]; intros Hk; [reflexivity|].
  apply not_elem_of_cons in Hk as [Hne Hk].
  rewrite expired_entries_cons.
  destruct (m !! j) as [v|]; [|by apply IH].
  destruct (expired_inline v now); [|by apply IH].
  rewrite filter_cons_False by (cbn; congruence). by apply IH.
Qed.

(** Each removed entry is collected once, with its value, and nothing else
    is collected. *)
Lemma expired_entries_once (m : gmap string (Item T)) now order k :
  NoDup order -> k ∈ order ->
  filter (fun kv => kv.1 = k) (expired_entries m now order) =
    match m !! k with
    | Some v => if expired_inline v now then [(k, Object v)] else []
    | None => []
    end.
Proof.
  induction order as [|j rest IH]; intros Hnd Hk; [by apply elem_of_nil in Hk|].
  apply NoDup_cons in Hnd as [Hj Hnd].
  rewrite expired_entries_cons.
  destruct (decide (j = k)) as [->|Hne].
  - pose proof (expired_entries_not_visited m now rest k Hj) as Hrest.
    destruct (m !! k) as [v|]; [|exact Hrest].
    destruct (expired_inline v now); [|exact Hrest].
    rewrite filter_cons_True by reflexivity. by rewrite Hrest.
  - apply elem_of_cons in Hk as [->|Hk]; [done|].
    destruct (m !! j) as [v|]; [|by apply IH].
    destruct (expired_inline v now); [|by apply IH].
    rewrite filter_cons_False by (cbn; congruence). by apply IH.
Qed.

(** *** Increment and Decrement *)

Context `{!Numeric T}.

Lemma Increment_run k (n : T) now c :
  Increment k n now c =
    match items c !! k with
    | Some v =>
        if Expired v now
        then (None, Some (KeyNotFound_Increment k), c, [EvLock; EvUnlock])
        else (Some (num_add (Object v) n), None,
              mkCache (defaultExpiration c)
                (<[k := mkItem (num_add (Object v) n) (Expiration v)]> (items c))
                (onEvicted c),
              [EvLock; EvUnlock])
    | None => (None, Some (KeyNotFound_Increment k), c, [EvLock; EvUnlock])
    end.
Proof.
  unfold Increment, bind, read. cbn.
  destruct (items c !! k) as [v|]; [|reflexivity].
  destruct (Expired v now); reflexivity.
Qed.

Lemma Decrement_run k (n : T) now c :
  Decrement k n now c =
    match items c !! k with
    | Some v =>
        if Expired v now
        then (None, Some KeyNotFound_Decrement, c, [EvLock; EvUnlock])
        else (Some (num_sub (Object v) n), None,
              mkCache (defaultExpiration c)
                (<[k := mkItem (num_sub (Object v) n) (Expiration v)]> (items c))
                (onEvicted c),
              [EvLock; EvUnlock])
    | None => (None, Some KeyNotFound_Decrement, c, [EvLock; EvUnlock])
    end.
Proof.
  unfold Decrement, bind, read. cbn.
  destruct (items c !! k) as [v|]; [|reflexivity].
  destruct (Expired v now); reflexivity.
Qed.

End Facts.

(** * The specification's claims *)

Section Claims.

Context {T : Type} `{!Zero T} {F : Type}.

Implicit Types (c : cache T F) (k j : string) (x : T) (now : Z).

(** C2.  For every key [k] and value [x], after [Set(k, x, NoExpiration)] the
    entry of [k] holds [x] with no expiration instant (the field is 0), and
    [Get(k)] returns [(x, true)] whatever the clock reads and however many
    times DeleteExpired has run in between, at whatever times and in
    whatever iteration orders. *)
Theorem Set_NoExpiration_forever c k x now (runs : list (Z * list string)) later :
  let c' := state (Set_ k x NoExpiration now c) in
  items c' !! k = Some (mkItem x 0) /\
  result (Get k later c') = (Some x, true) /\
  result (Get k later (sweeps runs c')) = (Some x, true).
Proof.
  intros c'. subst c'. rewrite Set_state.
  assert (He : forall de, expiration_of de NoExpiration now = 0) by reflexivity.
  rewrite He. set (c' := mkCache _ _ _).
  assert (Hk : items c' !! k = Some (mkItem x 0)) by apply lookup_insert_eq.
  split; [exact Hk|]. split.
  - rewrite Get_result, Hk. reflexivity.
  - rewrite Get_result, (sweeps_keep runs c' k _ Hk) by (cbn; lia).
    reflexivity.
Qed.

(** C5.  [Get(k)] returns [(nil, false)] exactly when the key is absent or the
    entry's expiration instant is set (positive, as the source reads "set")
    and strictly before the clock; in every other case it returns the stored
    value and [true].  Get never changes the cache: in particular an expired
    entry that has not been swept is still in the map after the call, and
    the only events are the read lock and its release. *)
Theorem Get_lazy_expiration c k now :
  (result (Get k now c) = (None, false) <->
     items c !! k = None \/
     exists item, items c !! k = Some item /\ 0 < Expiration item < now) /\
  (forall item, items c !! k = Some item -> ~ 0 < Expiration item < now ->
     result (Get k now c) = (Some (Object item), true)) /\
  state (Get k now c) = c /\
  items (state (Get k now c)) !! k = items c !! k /\
  trace (Get k now c) = [EvRLock; EvRUnlock].
Proof.
  rewrite Get_state, Get_trace, Get_result.
  split; [|split; [|auto]].
  - destruct (items c !! k) as [item|] eqn:Hk.
    + destruct (expired_inline item now) eqn:He.
      * apply expired_inline_spec in He. split; [|reflexivity].
        intros _. right. exists item. auto.
      * apply not_true_iff_false in He. rewrite expired_inline_spec in He.
        split; [discriminate|].
        intros [?|(item' & Hi & ?)]; [discriminate|]. congruence.
    + split; [auto | reflexivity].
  - intros item Hk He. rewrite Hk.
    rewrite <- expired_inline_spec in He. apply not_true_iff_false in He.
    rewrite He. reflexivity.
Qed.

(** C7.  After [Flush()], [ItemCount()] is 0 and [Get(k)] finds nothing for
    any key at any time, and Flush calls the eviction callback zero times:
    its only events are taking and releasing the lock, whatever the map
    held and whether or not a callback is registered. *)
Theorem Flush_empties_silently c :
  let c' := state (Flush c) in
  result (ItemCount c') = 0%nat /\
  (forall k now, result (Get k now c') = (None, false)) /\
  trace (Flush c) = [EvLock; EvUnlock] /\
  evictions (trace (Flush c)) = [] /\
  onEvicted c' = onEvicted c.
Proof.
  intros c'. subst c'.
  split; [reflexivity|]. split; [|repeat split].
  intros k now. rewrite Get_result. reflexivity.
Qed.

(** C9.  [newCache] (and [newNumericCache]) given the default expiration 0
    builds the very cache it builds given NoExpiration (-1), so every method
    behaves the same on both; its default is -1, and an entry written by
    [Set(k, x, DefaultExpiration)] or [SetDefault(k, x)] has no expiration
    instant and is found by Get at any time, also after any runs of
    DeleteExpired. *)
Theorem newCache_zero_is_NoExpiration (m : gmap string (Item T)) k x now
    (runs : list (Z * list string)) later :
  let c0 : cache T F := newCache 0 m in
  c0 = newCache NoExpiration m /\
  newNumericCache (F := F) 0 m = newNumericCache NoExpiration m /\
  (forall A (method : M T F A), method c0 = method (newCache NoExpiration m)) /\
  defaultExpiration c0 = NoExpiration /\
  state (SetDefault k x now c0) = state (Set_ k x DefaultExpiration now c0) /\
  let c' := state (Set_ k x DefaultExpiration now c0) in
  items c' !! k = Some (mkItem x 0) /\
  result (Get k later c') = (Some x, true) /\
  result (Get k later (sweeps runs c')) = (Some x, true).
Proof.
  intros c0. subst c0.
  split; [reflexivity|]. split; [reflexivity|]. split; [reflexivity|].
  split; [reflexivity|]. split; [reflexivity|].
  intros c'. subst c'. rewrite Set_state.
  change (expiration_of _ _ _) with 0. set (c' := mkCache _ _ _).
  assert (Hk : items c' !! k = Some (mkItem x 0)) by apply lookup_insert_eq.
  split; [exact Hk|]. split.
  - rewrite Get_result, Hk. reflexivity.
  - rewrite Get_result, (sweeps_keep runs c' k _ Hk) by (cbn; lia).
    reflexivity.
Qed.

(** C1.  [Add(k, x, d)] succeeds exactly when [k] has no live entry at the
    moment of the check, which includes the case of an entry that is in
    the map but expired; it then leaves the cache and the trace that
    [Set(k, x, d)] leaves.  Otherwise it fails with the "already exists"
    error (KeyExists) and the cache is unchanged, so [Get(k)] returns what
    it returned before at every time, and at the time of the check it
    returns the previously stored value. *)
Theorem Add_only_without_live_entry c k x d now_get now_set :
  let r := Add k x d now_get now_set c in
  (result r = None <-> live c k now_get = false) /\
  (result r = Some (KeyExists k) <-> live c k now_get = true) /\
  (live c k now_get = false ->
     state r = state (Set_ k x d now_set c) /\
     trace r = trace (Set_ k x d now_set c)) /\
  (forall item, items c !! k = Some item -> 0 < Expiration item < now_get ->
     result r = None /\ state r = state (Set_ k x d now_set c)) /\
  (live c k now_get = true ->
     state r = c /\
     (forall later, result (Get k later (state r)) = result (Get k later c)) /\
     exists item, items c !! k = Some item /\
       result (Get k now_get (state r)) = (Some (Object item), true)).
Proof.
  intros r. subst r. rewrite Add_run.
  destruct (live c k now_get) eqn:Hl; rewrite ?result_mk, ?state_mk, ?trace_mk.
  - split; [split; discriminate|]. split; [tauto|]. split; [discriminate|].
    split.
    + intros item Hk He. apply live_spec in Hl as (item' & Hk' & Hn).
      assert (item' = item) as -> by congruence. contradiction.
    + intros _. split; [reflexivity|]. split; [reflexivity|].
      apply live_spec in Hl as (item & Hk & Hn). exists item.
      split; [exact Hk|]. rewrite Get_result, Hk.
      rewrite <- expired_inline_spec in Hn. apply not_true_iff_false in Hn.
      rewrite Hn. reflexivity.
  - split; [tauto|]. split; [split; discriminate|].
    split; [intros _; split; reflexivity|].
    split; [intros; split; reflexivity | discriminate].
Qed.

(** C10.  [Delete(k)] does not look at the expiration.  When [k] maps to an
    entry whose expiration instant has passed, Delete removes it from the
    map, leaves every other key alone, and, when a callback is registered,
    calls it once with [k] and that entry's value, after releasing the
    lock; with no callback it calls nothing.  On the same cache Get finds
    nothing, Add succeeds and Replace fails with its "doesn't exist"
    error: these three treat the entry as absent. *)
Theorem Delete_removes_expired_entry c k (item : Item T) now x d now_set
    (Hk : items c !! k = Some item)
    (Hexp : 0 < Expiration item < now) :
  items (state (Delete k c)) !! k = None /\
  (forall j, j <> k -> items (state (Delete k c)) !! j = items c !! j) /\
  (forall f, onEvicted c = Some f ->
     trace (Delete k c) = [EvLock; EvUnlock; EvEvicted f k (Object item)] /\
     callbacks_unlocked false (trace (Delete k c)) = true) /\
  (onEvicted c = None -> trace (Delete k c) = [EvLock; EvUnlock]) /\
  result (Get k now c) = (None, false) /\
  result (Add k x d now now_set c) = None /\
  result (Replace k x d now now_set c) = Some (KeyNotFound_Replace k).
Proof.
  assert (Hl : live c k now = false).
  { apply not_true_iff_false. rewrite live_spec.
    intros (item' & Hk' & Hn). assert (item' = item) as -> by congruence.
    contradiction. }
  rewrite Delete_items, Delete_trace, Hk, Add_run, Replace_run, Hl.
  split; [apply lookup_delete_eq|].
  split; [intros j Hj; by apply lookup_delete_ne|].
  split; [intros f ->; split; reflexivity|].
  split; [intros ->; reflexivity|].
  split; [|split; reflexivity].
  rewrite Get_result, Hk.
  apply expired_inline_spec in Hexp. rewrite Hexp. reflexivity.
Qed.

(** C6, amended.  With the loop visiting every key of the map once,
    [DeleteExpired()] removes exactly the entries whose expiration instant
    is positive and strictly earlier than the clock; every other entry
    (expiration 0, negative, or not yet passed) stays as it is.  When a
    callback is registered it is called exactly once for each removed
    entry, with that entry's key and value, and for nothing else; with no
    callback nothing is called.  All the calls come after the lock is
    released. *)
Theorem DeleteExpired_removes_positive_past c now (order : list string)
    (Hnd : NoDup order)
    (Hdom : dom (items c) = list_to_set order) :
  let r := DeleteExpired now order c in
  (forall k v, items c !! k = Some v ->
     (0 < Expiration v < now -> items (state r) !! k = None) /\
     (~ 0 < Expiration v < now -> items (state r) !! k = Some v)) /\
  (forall k, items c !! k = None -> items (state r) !! k = None) /\
  (forall f, onEvicted c = Some f ->
     trace r = EvLock :: EvUnlock ::
               map (fun kv => EvEvicted f kv.1 kv.2)
                   (expired_entries (items c) now order) /\
     forall k, filter (fun kv => kv.1 = k) (evictions (trace r)) =
               match items c !! k with
               | Some v => if expired_inline v now then [(k, Object v)] else []
               | None => []
               end) /\
  (onEvicted c = None -> trace r = [EvLock; EvUnlock]) /\
  callbacks_unlocked false (trace r) = true /\
  defaultExpiration (state r) = defaultExpiration c /\
  onEvicted (state r) = onEvicted c.
Proof.
  intros r. subst r.
  assert (Hall : forall k, k ∈ order <-> is_Some (items c !! k)).
  { intros k. rewrite <- elem_of_dom, Hdom, elem_of_list_to_set. tauto. }
  assert (Hres : result (sweep now order [] c) =
                 if bool_decide (is_Some (onEvicted c))
                 then expired_entries (items c) now order else []).
  { by rewrite sweep_result. }
  rewrite DeleteExpired_trace, Hres.
  split; [|split; [|split; [|split; [|split]]]].
  - intros k v Hk. rewrite DeleteExpired_lookup, Hk.
    rewrite bool_decide_eq_true_2 by (apply Hall; eauto). cbn [andb].
    rewrite <- !expired_inline_spec.
    destruct (expired_inline v now); split; intros; congruence.
  - intros k Hk. by rewrite DeleteExpired_lookup, Hk.
  - intros f Hf. rewrite Hf. cbn [bool_decide]. 
    rewrite bool_decide_eq_true_2 by eauto.
    split; [reflexivity|]. intros k. cbn [evictions]. rewrite evictions_map.
    destruct (decide (k ∈ order)) as [Hin|Hout].
    + by apply expired_entries_once.
    + rewrite expired_entries_not_visited by done.
      destruct (items c !! k) as [v|] eqn:Hk; [|reflexivity].
      exfalso. apply Hout, Hall. eauto.
  - intros Hf. rewrite Hf.
    rewrite bool_decide_eq_false_2 by (intros [? [=]]). reflexivity.
  - destruct (onEvicted c) as [f|].
    + cbn [callbacks_unlocked]. apply callbacks_unlocked_map.
    + rewrite bool_decide_eq_false_2 by (intros [? [=]]). reflexivity.
  - rewrite DeleteExpired_state. apply sweep_frame.
Qed.

Context `{!Numeric T}.

(** C4.  [Increment(k, n)] and [Decrement(k, n)] fail exactly when the key is
    absent from the map or its entry is expired according to
    [Item.Expired] (expiration not 0 and before the clock); the error is
    the "not found" one (KeyNotFound), no value is returned, and the
    failed call leaves the cache, map and every entry in it, unchanged. *)
Theorem Increment_Decrement_fail_iff_absent_or_expired c k (n : T) now :
  let gone := items c !! k = None \/
              exists v, items c !! k = Some v /\ Expired v now = true in
  let ri := Increment k n now c in
  let rd := Decrement k n now c in
  ((result ri).2 = Some (KeyNotFound_Increment k) <-> gone) /\
  ((result ri).2 = None <-> ~ gone) /\
  ((result rd).2 = Some KeyNotFound_Decrement <-> gone) /\
  ((result rd).2 = None <-> ~ gone) /\
  (gone -> state ri = c /\ (result ri).1 = None) /\
  (gone -> state rd = c /\ (result rd).1 = None).
Proof.
  intros gone ri rd. subst gone ri rd.
  rewrite Increment_run, Decrement_run.
  destruct (items c !! k) as [v|] eqn:Hk.
  - destruct (Expired v now) eqn:He; rewrite ?result_mk, ?state_mk; cbn [fst snd].
    + assert (Hg : Some v = None \/
                   exists v0, Some v = Some v0 /\ Expired v0 now = true)
        by (right; eauto).
      repeat split; auto; try discriminate; intros; tauto.
    + assert (Hg : ~ (Some v = None \/
                   exists v0, Some v = Some v0 /\ Expired v0 now = true)).
      { intros [?|(v0 & [= <-] & H)]; congruence. }
      repeat split; auto; try discriminate; intros; tauto.
  - rewrite ?result_mk, ?state_mk; cbn [fst snd].
    repeat split; auto; try discriminate; intros; tauto.
Qed.

(** C8.  A successful [Increment(k, n)] (or [Decrement(k, n)]) found an entry
    for [k]; it returns the old value plus (minus) [n], stores that value
    under [k] with the entry's expiration instant unchanged, and leaves
    every other key's entry, the default expiration and the callback as
    they were. *)
Theorem Increment_Decrement_touch_only_the_value c k (n : T) now :
  let ri := Increment k n now c in
  let rd := Decrement k n now c in
  ((result ri).2 = None ->
     exists v, items c !! k = Some v /\
       (result ri).1 = Some (num_add (Object v) n) /\
       items (state ri) !! k =
         Some (mkItem (num_add (Object v) n) (Expiration v)) /\
       (forall j, j <> k -> items (state ri) !! j = items c !! j) /\
       defaultExpiration (state ri) = defaultExpiration c /\
       onEvicted (state ri) = onEvicted c) /\
  ((result rd).2 = None ->
     exists v, items c !! k = Some v /\
       (result rd).1 = Some (num_sub (Object v) n) /\
       items (state rd) !! k =
         Some (mkItem (num_sub (Object v) n) (Expiration v)) /\
       (forall j, j <> k -> items (state rd) !! j = items c !! j) /\
       defaultExpiration (state rd) = defaultExpiration c /\
       onEvicted (state rd) = onEvicted c).
Proof.
  intros ri rd. subst ri rd. rewrite Increment_run, Decrement_run.
  destruct (items c !! k) as [v|] eqn:Hk.
  - destruct (Expired v now); rewrite ?result_mk, ?state_mk; cbn [fst snd].
    + split; discriminate.
    + split; intros _; exists v; cbn [items defaultExpiration onEvicted];
        (split; [reflexivity|]); (split; [reflexivity|]);
        (split; [apply lookup_insert_eq|]);
        (split; [intros j Hj; by apply lookup_insert_ne|]);
        split; reflexivity.
  - rewrite ?result_mk, ?state_mk; cbn [fst snd]. split; discriminate.
Qed.

End Claims.

(** ** Wrap-around of the fixed-width kinds *)

Section Wraparound.

Context {F : Type}.

Lemma wrap_in_range kind z : in_range kind (wrap kind z).
Proof. by_kind kind; Z.div_mod_to_equations; lia. Qed.

Lemma wrap_congruent kind z : (wrap kind z - z) mod 2 ^ bits kind = 0.
Proof. by_kind kind; Z.div_mod_to_equations; lia. Qed.

Lemma wrap_id kind z : in_range kind z -> wrap kind z = z.
Proof. by_kind kind; intros; Z.div_mod_to_equations; lia. Qed.

(** One step out of the range, on either side, never lands on the bound
    that saturation would give. *)
Lemma wrap_not_saturate kind z :
  min_value kind - 2 ^ bits kind < z < max_value kind + 2 ^ bits kind ->
  ~ in_range kind z ->
  wrap kind z <> saturate kind z.
Proof. by_kind kind; intros; Z.div_mod_to_equations; lia. Qed.

(** C3.  Increment and Decrement on a fixed-width integer kind wrap modulo
    the bit width and never fail on overflow: on a live entry they return
    the exact sum (difference) brought back into the kind's range by a
    multiple of two to the width.  An int8 entry holding 127 incremented
    by 1 yields -128, a uint8 entry holding 0 decremented by 1 yields 255
    and one holding 255 incremented by 1 yields 0.  Whenever the exact
    result of two in-range operands leaves the range, the value returned
    differs from the saturated one. *)
Theorem Increment_Decrement_wrap_around :
  (forall (c : cache int8 F) k v now,
     items c !! k = Some v -> Expired v now = false -> Object v = Fix 127 ->
     result (Increment k (Fix 1) now c) = (Some (Fix (-128)), None) /\
     items (state (Increment k (Fix 1) now c)) !! k =
       Some (mkItem (Fix (-128)) (Expiration v))) /\
  (forall (c : cache uint8 F) k v now,
     items c !! k = Some v -> Expired v now = false -> Object v = Fix 0 ->
     result (Decrement k (Fix 1) now c) = (Some (Fix 255), None) /\
     items (state (Decrement k (Fix 1) now c)) !! k =
       Some (mkItem (Fix 255) (Expiration v))) /\
  (forall (c : cache uint8 F) k v now,
     items c !! k = Some v -> Expired v now = false -> Object v = Fix 255 ->
     result (Increment k (Fix 1) now c) = (Some (Fix 0), None)) /\
  (forall kind (c : cache (fixed kind) F) k v n now,
     items c !! k = Some v -> Expired v now = false ->
     result (Increment k n now c) =
       (Some (Fix (wrap kind (fval (Object v) + fval n))), None) /\
     result (Decrement k n now c) =
       (Some (Fix (wrap kind (fval (Object v) - fval n))), None)) /\
  (forall kind z,
     in_range kind (wrap kind z) /\
     (wrap kind z - z) mod 2 ^ bits kind = 0 /\
     (in_range kind z -> wrap kind z = z)) /\
  (forall kind a b, in_range kind a -> in_range kind b ->
     (~ in_range kind (a + b) -> wrap kind (a + b) <> saturate kind (a + b)) /\
     (~ in_range kind (a - b) -> wrap kind (a - b) <> saturate kind (a - b))).
Proof.
  split; [|split; [|split; [|split; [|split]]]].
  - intros c k v now Hk He Hv. rewrite Increment_run, Hk, He, Hv.
    split; [reflexivity|]. apply lookup_insert_eq.
  - intros c k v now Hk He Hv. rewrite Decrement_run, Hk, He, Hv.
    split; [reflexivity|]. apply lookup_insert_eq.
  - intros c k v now Hk He Hv. rewrite Increment_run, Hk, He, Hv.
    reflexivity.
  - intros kind c k v n now Hk He.
    rewrite Increment_run, Decrement_run, Hk, He. split; reflexivity.
  - intros kind z. split; [apply wrap_in_range|].
    split; [apply wrap_congruent | apply wrap_id].
  - intros kind a b Ha Hb. split; apply wrap_not_saturate.
    + by_kind kind; lia.
    + by_kind kind; lia.
Qed.

End Wraparound.

(** * Further properties of the code *)

Section More.

Context {T : Type} `{!Zero T} {F : Type}.

Implicit Types (c : cache T F) (k j : string) (x : T) (now : Z).

Lemma expired_inline_mono (v : Item T) now later :
  now <= later -> expired_inline v now = true -> expired_inline v later = true.
Proof. rewrite !expired_inline_spec. lia. Qed.

Lemma live_lookup c k now (v : Item T) :
  items c !! k = Some v -> live c k now = negb (expired_inline v now).
Proof. intros Hk. unfold live. by rewrite Hk. Qed.

Lemma ItemCount_result c : result (ItemCount c) = size (items c).
Proof. reflexivity. Qed.

Lemma GetWithExpiration_run k now c :
  GetWithExpiration k now c =
    (match items c !! k with
     | Some item =>
         if expired_inline item now then (None, None, false)
         else (Some (Object item),
               (if Expiration item >? 0 then Some (Expiration item) else None),
               true)
     | None => (None, None, false)
     end, c, [EvRLock; EvRUnlock]).
Proof.
  unfold GetWithExpiration, bind, RLock, RUnlock, emit, read, expired_inline.
  cbn. destruct (items c !! k) as [item|]; [|reflexivity].
  destruct (Expiration item >? 0); [|reflexivity].
  destruct (now >? Expiration item); reflexivity.
Qed.

(** X1.  [Replace(k, x, d)] succeeds exactly when [k] has a live entry at the
    moment of the check; it then leaves the cache that [Set(k, x, d)] leaves,
    with the same number of entries and every other key untouched.  On a
    missing key and on an expired one it returns the "doesn't exist" error
    and the cache is unchanged.  It never calls the eviction callback. *)
Theorem Replace_only_with_live_entry c k x d now_get now_set :
  let r := Replace k x d now_get now_set c in
  (result r = None <-> live c k now_get = true) /\
  (result r = Some (KeyNotFound_Replace k) <-> live c k now_get = false) /\
  (items c !! k = None -> result r = Some (KeyNotFound_Replace k)) /\
  (forall item, items c !! k = Some item -> 0 < Expiration item < now_get ->
     result r = Some (KeyNotFound_Replace k)) /\
  (live c k now_get = false -> state r = c) /\
  (live c k now_get = true ->
     state r = state (Set_ k x d now_set c) /\
     size (items (state r)) = size (items c) /\
     forall j, j <> k -> items (state r) !! j = items c !! j) /\
  trace r = [EvLock; EvUnlock].
Proof.
  intros r. subst r. rewrite Replace_run.
  destruct (live c k now_get) eqn:Hl; rewrite ?result_mk, ?state_mk, ?trace_mk.
  - split; [tauto|]. split; [split; discriminate|].
    apply live_spec in Hl as (item & Hk & Hn).
    split; [intros Hnone; congruence|].
    split; [intros item' Hk' He; assert (item' = item) as -> by congruence;
            contradiction|].
    split; [discriminate|]. split; [|reflexivity].
    intros _. split; [reflexivity|]. rewrite Set_state. cbn [items].
    split; [|intros j Hj; by apply lookup_insert_ne].
    apply map_size_insert_Some. rewrite Hk. eauto.
  - split; [split; discriminate|]. split; [tauto|].
    split; [reflexivity|]. split; [reflexivity|].
    split; [reflexivity|]. split; [discriminate | reflexivity].
Qed.

(** X2.  On the same cache and with the same clock reading for the check,
    exactly one of Add and Replace succeeds, whatever values and durations
    they carry: Add where there is no live entry, Replace where there is. *)
Theorem Add_xor_Replace c k x y d d' now now_add now_replace :
  (result (Add k x d now now_add c) = None /\
   result (Replace k y d' now now_replace c) = Some (KeyNotFound_Replace k)) \/
  (result (Add k x d now now_add c) = Some (KeyExists k) /\
   result (Replace k y d' now now_replace c) = None).
Proof.
  rewrite Add_run, Replace_run.
  destruct (live c k now); rewrite !result_mk; [right | left]; split; reflexivity.
Qed.

Lemma Add_UnixNano_exact now d :
  - 2 ^ 63 <= now + d < 2 ^ 63 -> Add_UnixNano now d = now + d.
Proof.
  intros H. unfold Add_UnixNano, wrap_signed. pow2.
  rewrite Z.mod_small by lia. lia.
Qed.

Lemma Add_UnixNano_overflow now d :
  2 ^ 63 <= now + d < 2 ^ 64 -> Add_UnixNano now d = now + d - 2 ^ 64.
Proof.
  intros H. unfold Add_UnixNano, wrap_signed. pow2.
  Z.div_mod_to_equations. lia.
Qed.

Lemma expiration_of_positive de d now d' :
  d' = (if d =? DefaultExpiration then de else d) -> 0 < d' ->
  expiration_of de d now = Add_UnixNano now d'.
Proof.
  intros -> Hd. unfold expiration_of.
  destruct (Z.gtb_spec (if d =? DefaultExpiration then de else d) 0);
    [reflexivity | lia].
Qed.

(** X3.  A positive duration [d'] (given, or the default when the sentinel 0
    is passed) that keeps [now + d'] within int64 makes Set store the
    expiration instant [now + d'].  Get and GetWithExpiration then find the
    value at every clock reading up to and including that instant, and
    nothing at any later one. *)
Theorem Set_then_Get_until_expiry c k x d d' now later
    (Hd : d' = if d =? DefaultExpiration then defaultExpiration c else d)
    (Hpos : 0 < d')
    (Hnow : 0 <= now)
    (Hfit : now + d' < 2 ^ 63) :
  let c' := state (Set_ k x d now c) in
  items c' !! k = Some (mkItem x (now + d')) /\
  (later <= now + d' ->
     result (Get k later c') = (Some x, true) /\
     result (GetWithExpiration k later c') = (Some x, Some (now + d'), true)) /\
  (now + d' < later ->
     result (Get k later c') = (None, false) /\
     result (GetWithExpiration k later c') = (None, None, false)).
Proof.
  intros c'. subst c'. rewrite Set_state.
  rewrite (expiration_of_positive _ _ _ _ Hd Hpos).
  rewrite Add_UnixNano_exact by lia.
  set (c' := mkCache _ _ _).
  assert (Hk : items c' !! k = Some (mkItem x (now + d')))
    by apply lookup_insert_eq.
  split; [exact Hk|].
  rewrite Get_result, GetWithExpiration_run, result_mk, Hk.
  unfold expired_inline. cbn [Expiration Object].
  destruct (Z.gtb_spec (now + d') 0) as [_|]; [|lia]. cbn [andb].
  split; intros Hl; destruct (Z.gtb_spec later (now + d')); try lia;
    split; reflexivity.
Qed.

(** X4.  When [now + d'] passes the int64 range, Set stores the wrapped,
    negative instant [now + d' - 2^64]; the entry then never expires:
    Get finds it at every clock reading, GetWithExpiration reports no
    expiration time, and no run of DeleteExpired removes it. *)
Theorem Set_overflow_never_expires c k x d d' now later
    (runs : list (Z * list string))
    (Hd : d' = if d =? DefaultExpiration then defaultExpiration c else d)
    (Hpos : 0 < d' < 2 ^ 63)
    (Hnow : 0 <= now < 2 ^ 63)
    (Hover : 2 ^ 63 <= now + d') :
  let c' := state (Set_ k x d now c) in
  items c' !! k = Some (mkItem x (now + d' - 2 ^ 64)) /\
  now + d' - 2 ^ 64 < 0 /\
  result (Get k later c') = (Some x, true) /\
  result (GetWithExpiration k later c') = (Some x, None, true) /\
  result (Get k later (sweeps runs c')) = (Some x, true).
Proof.
  intros c'. subst c'. rewrite Set_state.
  rewrite (expiration_of_positive _ _ _ _ Hd (proj1 Hpos)).
  rewrite Add_UnixNano_overflow by lia.
  set (c' := mkCache _ _ _).
  assert (Hneg : now + d' - 2 ^ 64 < 0) by lia.
  assert (Hk : items c' !! k = Some (mkItem x (now + d' - 2 ^ 64)))
    by apply lookup_insert_eq.
  assert (He : forall t, expired_inline (mkItem x (now + d' - 2 ^ 64)) t = false).
  { intros t. apply not_true_iff_false. rewrite expired_inline_spec. cbn. lia. }
  split; [exact Hk|]. split; [exact Hneg|].
  rewrite !Get_result, GetWithExpiration_run, result_mk, Hk, He.
  rewrite (sweeps_keep runs c' k _ Hk) by (cbn; lia). rewrite He.
  cbn [Expiration Object].
  destruct (Z.gtb_spec (now + d' - 2 ^ 64) 0); [lia|].
  repeat split; reflexivity.
Qed.

(** X5.  GetWithExpiration returns the value and the flag that Get returns.
    It returns an expiration time exactly when the entry is found and its
    expiration instant is positive, and that time is then the stored
    instant, never one before the clock.  It leaves the cache unchanged. *)
Theorem GetWithExpiration_agrees_with_Get c k now :
  let r := result (GetWithExpiration k now c) in
  (r.1.1, r.2) = result (Get k now c) /\
  (forall e, r.1.2 = Some e <->
     exists item, items c !! k = Some item /\ Expiration item = e /\
                  0 < e /\ now <= e) /\
  state (GetWithExpiration k now c) = c /\
  trace (GetWithExpiration k now c) = [EvRLock; EvRUnlock].
Proof.
  intros r. subst r.
  rewrite GetWithExpiration_run, Get_result, result_mk, state_mk, trace_mk.
  split; [|split; [|split; reflexivity]].
  - destruct (items c !! k) as [item|]; [|reflexivity].
    destruct (expired_inline item now); reflexivity.
  - intros e. destruct (items c !! k) as [item|] eqn:Hk.
    + destruct (expired_inline item now) eqn:He; cbn [fst snd].
      * apply expired_inline_spec in He.
        split; [discriminate|]. intros (item' & [= <-] & <- & ? & ?). lia.
      * apply not_true_iff_false in He. rewrite expired_inline_spec in He.
        destruct (Z.gtb_spec (Expiration item) 0) as [Hp|Hp].
        -- split.
           ++ intros [= <-]. exists item. repeat split; lia.
           ++ intros (item' & [= <-] & <- & _). reflexivity.
        -- split; [discriminate|].
           intros (item' & [= <-] & <- & ? & ?). lia.
    + cbn [fst snd]. split; [discriminate|]. intros (item' & [=] & _).
Qed.

(** X6.  On an unchanged cache, Get is monotone in time: a value found at a
    later clock reading is found, the same, at every earlier one, and a key
    not found now is not found at any later reading. *)
Theorem Get_is_monotone_in_time c k x now later (Hle : now <= later) :
  (result (Get k later c) = (Some x, true) ->
   result (Get k now c) = (Some x, true)) /\
  (result (Get k now c) = (None, false) ->
   result (Get k later c) = (None, false)).
Proof.
  rewrite !Get_result. destruct (items c !! k) as [item|]; [|split; auto].
  destruct (expired_inline item now) eqn:Hn.
  - rewrite (expired_inline_mono item now later Hle Hn). split; auto.
  - destruct (expired_inline item later); split; auto; discriminate.
Qed.

(** X7.  Set writes one key: every other key keeps its entry and its Get
    result, the number of entries grows by one for a key that was not in
    the map and is unchanged for one that was (also an expired one), the
    default expiration and the callback stay, and the callback is not
    called, overwrite or not. *)
Theorem Set_touches_one_key c k x d now :
  let c' := state (Set_ k x d now c) in
  (forall j, j <> k -> items c' !! j = items c !! j) /\
  (forall j later, j <> k -> result (Get j later c') = result (Get j later c)) /\
  result (ItemCount c') =
    match items c !! k with
    | Some _ => result (ItemCount c)
    | None => S (result (ItemCount c))
    end /\
  evictions (trace (Set_ k x d now c)) = [] /\
  defaultExpiration c' = defaultExpiration c /\
  onEvicted c' = onEvicted c.
Proof.
  intros c'. subst c'. rewrite Set_state, Set_trace, !ItemCount_result.
  cbn [items defaultExpiration onEvicted].
  split; [intros j Hj; by apply lookup_insert_ne|].
  split.
  { intros j later Hj. rewrite !Get_result. cbn [items].
    by rewrite lookup_insert_ne. }
  split; [|repeat split].
  destruct (items c !! k) as [v|] eqn:Hk.
  - apply map_size_insert_Some. rewrite Hk. eauto.
  - by apply map_size_insert_None.
Qed.

Lemma Delete_absent k c : items c !! k = None -> Delete k c = (tt, c, [EvLock; EvUnlock]).
Proof.
  intros Hk. unfold Delete, delete_, bind, read, call_onEvicted. cbn.
  rewrite Hk. cbn. rewrite andb_false_r. reflexivity.
Qed.

(** X8.  After [Delete(k)], Get finds nothing for [k] at any time, every
    other key keeps its entry, and the number of entries is one less when
    [k] was in the map and the same when it was not; a Delete of a missing
    key changes nothing and calls nothing.  On the resulting cache Add of
    [k] succeeds and Replace fails. *)
Theorem Delete_forgets_the_key c k x d now now_set :
  let c' := state (Delete k c) in
  (forall later, result (Get k later c') = (None, false)) /\
  (forall j, j <> k -> items c' !! j = items c !! j) /\
  result (ItemCount c') =
    match items c !! k with
    | Some _ => pred (result (ItemCount c))
    | None => result (ItemCount c)
    end /\
  (items c !! k = None ->
     Delete k c = (tt, c, [EvLock; EvUnlock])) /\
  result (Add k x d now now_set c') = None /\
  result (Replace k x d now now_set c') = Some (KeyNotFound_Replace k).
Proof.
  intros c'. subst c'.
  assert (Hgone : items (state (Delete k c)) !! k = None)
    by (rewrite Delete_items; apply lookup_delete_eq).
  assert (Hl : live (state (Delete k c)) k now = false)
    by (unfold live; by rewrite Hgone).
  rewrite Add_run, Replace_run, Hl, !result_mk, !ItemCount_result, Delete_items.
  split; [intros later; by rewrite Get_result, Hgone|].
  split; [intros j Hj; by apply lookup_delete_ne|].
  split; [|split; [apply Delete_absent | split; reflexivity]].
  destruct (items c !! k) as [v|] eqn:Hk.
  - rewrite map_size_delete, Hk. reflexivity.
  - by rewrite delete_id.
Qed.

Lemma copy_unexpired_lookup now order (src : gmap string (Item T)) :
  forall (m : gmap string (Item T)) j,
  copy_unexpired now order src m !! j =
    match src !! j with
    | Some v => if bool_decide (j ∈ order) && negb (expired_inline v now)
                then Some v else m !! j
    | None => m !! j
    end.
Proof.
  induction order as [|k rest IH]; intros m j.
  - cbn. destruct (src !! j); reflexivity.
  - cbn [copy_unexpired].
    assert (Hrest : j <> k -> bool_decide (j ∈ k :: rest) = bool_decide (j ∈ rest)).
    { intros Hne. apply bool_decide_ext. rewrite elem_of_cons. tauto. }
    destruct (src !! k) as [v|] eqn:Hk.
    + assert (Hcase :
        (if Expiration v >? 0
         then if now >? Expiration v
              then copy_unexpired now rest src m
              else copy_unexpired now rest src (<[k:=v]> m)
         else copy_unexpired now rest src (<[k:=v]> m)) =
        if expired_inline v now then copy_unexpired now rest src m
        else copy_unexpired now rest src (<[k:=v]> m)).
      { unfold expired_inline. destruct (Expiration v >? 0); [|reflexivity].
        destruct (now >? Expiration v); reflexivity. }
      rewrite Hcase. clear Hcase.
      destruct (expired_inline v now) eqn:He; rewrite IH.
      * destruct (decide (j = k)) as [->|Hne].
        -- rewrite Hk, He, !andb_false_r. reflexivity.
        -- rewrite (Hrest Hne). reflexivity.
      * destruct (decide (j = k)) as [->|Hne].
        -- rewrite Hk, He, lookup_insert_eq.
           rewrite (bool_decide_eq_true_2 (k ∈ k :: rest))
             by apply list_elem_of_here.
           destruct (bool_decide (k ∈ rest)); reflexivity.
        -- rewrite lookup_insert_ne by done. rewrite (Hrest Hne). reflexivity.
    + rewrite IH. destruct (src !! j) as [w|] eqn:Hj; [|reflexivity].
      rewrite Hrest by congruence. reflexivity.
Qed.

Lemma Items_run now order c :
  Items now order c =
    (copy_unexpired now order (items c) ∅, c, [EvRLock; EvRUnlock]).
Proof. reflexivity. Qed.

Lemma Items_lookup now order c j :
  dom (items c) = list_to_set order ->
  result (Items now order c) !! j =
    match items c !! j with
    | Some v => if expired_inline v now then None else Some v
    | None => None
    end.
Proof.
  intros Hdom. rewrite Items_run, result_mk, copy_unexpired_lookup, lookup_empty.
  destruct (items c !! j) as [v|] eqn:Hj; [|reflexivity].
  rewrite bool_decide_eq_true_2.
  - destruct (expired_inline v now); reflexivity.
  - assert (Hin : j ∈ dom (items c)) by (apply elem_of_dom; eauto).
    rewrite Hdom in Hin. by apply elem_of_list_to_set in Hin.
Qed.

(** X9.  With the loop visiting every key of the map, [Items()] returns
    exactly the entries that are in the map and not expired at the clock:
    a key is in the returned map, with a given value, exactly when Get
    finds that value.  The result does not depend on the iteration order,
    and the cache is unchanged. *)
Theorem Items_is_the_live_snapshot c now (order : list string)
    (Hdom : dom (items c) = list_to_set order) :
  (forall j v, result (Items now order c) !! j = Some v <->
     items c !! j = Some v /\ ~ 0 < Expiration v < now) /\
  (forall j x, (exists v, result (Items now order c) !! j = Some v /\
                          Object v = x) <->
     result (Get j now c) = (Some x, true)) /\
  (forall order', dom (items c) = list_to_set order' ->
     result (Items now order' c) = result (Items now order c)) /\
  state (Items now order c) = c /\
  trace (Items now order c) = [EvRLock; EvRUnlock].
Proof.
  split; [|split; [|split; [|split; reflexivity]]].
  - intros j v. rewrite Items_lookup by done.
    destruct (items c !! j) as [w|]; [|split; [discriminate | tauto]].
    destruct (expired_inline w now) eqn:He.
    + apply expired_inline_spec in He.
      split; [discriminate|]. intros [[= ->] Hn]. contradiction.
    + apply not_true_iff_false in He. rewrite expired_inline_spec in He.
      split; [intros [= ->]; auto | tauto].
  - intros j x. rewrite Items_lookup, Get_result by done.
    destruct (items c !! j) as [w|].
    + destruct (expired_inline w now).
      * split; [intros (v & [=] & _) | discriminate].
      * split; [intros (v & [= <-] & <-); reflexivity|].
        intros [= <-]. eauto.
    + split; [intros (v & [=] & _) | discriminate].
  - intros order' Hdom'. apply map_eq. intros j.
    by rewrite !Items_lookup.
Qed.

(** X10.  A cache built by [newCache] (the constructor behind NewFrom) from
    the map that [Items()] returned answers every Get, at the time of the
    snapshot or later, as the original cache does. *)
Theorem NewFrom_Items_round_trip c de now later k (order : list string)
    (Hdom : dom (items c) = list_to_set order)
    (Hle : now <= later) :
  result (Get k later (newCache (F := F) de (result (Items now order c)))) =
  result (Get k later c).
Proof.
  rewrite !Get_result. cbn [newCache items]. rewrite Items_lookup by done.
  destruct (items c !! k) as [v|]; [|reflexivity].
  destruct (expired_inline v now) eqn:He; [|reflexivity].
  by rewrite (expired_inline_mono v now later Hle He).
Qed.

Lemma DeleteExpired_Get_later c now later k (order : list string) :
  now <= later ->
  result (Get k later (state (DeleteExpired now order c))) =
  result (Get k later c).
Proof.
  intros Hle. rewrite !Get_result, DeleteExpired_lookup.
  destruct (items c !! k) as [v|]; [|reflexivity].
  destruct (bool_decide (k ∈ order)); [|reflexivity]. cbn [andb].
  destruct (expired_inline v now) eqn:He; [|reflexivity].
  by rewrite (expired_inline_mono v now later Hle He).
Qed.

(** X11.  A run of DeleteExpired cannot be observed through Get or
    GetWithExpiration at the time of the run or later: whatever the
    iteration order, they return on the swept cache what they return on the
    original one. *)
Theorem DeleteExpired_invisible_to_Get c now later k (order : list string)
    (Hle : now <= later) :
  result (Get k later (state (DeleteExpired now order c))) =
  result (Get k later c) /\
  result (GetWithExpiration k later (state (DeleteExpired now order c))) =
  result (GetWithExpiration k later c).
Proof.
  split; [by apply DeleteExpired_Get_later|].
  rewrite !GetWithExpiration_run, !result_mk, DeleteExpired_lookup.
  destruct (items c !! k) as [v|]; [|reflexivity].
  destruct (bool_decide (k ∈ order)); [|reflexivity]. cbn [andb].
  destruct (expired_inline v now) eqn:He; [|reflexivity].
  by rewrite (expired_inline_mono v now later Hle He).
Qed.

Lemma run_eta {A} (r : A * cache T F * list (Event T F)) :
  r = (result r, state r, trace r).
Proof. by destruct r as [[a c] tr]. Qed.

Lemma sweep_nothing_expired now order : forall ev c,
  (forall j (v : Item T), items c !! j = Some v -> expired_inline v now = false) ->
  sweep now order ev c = (ev, c, []).
Proof.
  induction order as [|k rest IH]; intros ev c Hnone; [reflexivity|].
  rewrite sweep_cons. cbn zeta.
  destruct (items c !! k) as [v|] eqn:Hk.
  - pose proof (Hnone k v Hk) as He.
    assert (Hstep : sweep_step now k v ev c = (ev, c, [])).
    { unfold sweep_step. unfold expired_inline in He. by rewrite He. }
    rewrite Hstep, result_mk, state_mk, trace_mk, IH by done. reflexivity.
  - rewrite result_mk, state_mk, trace_mk, IH by done. reflexivity.
Qed.

Lemma sweep_no_callback now order : forall ev c,
  onEvicted c = None -> result (sweep now order ev c) = ev.
Proof.
  induction order as [|k rest IH]; intros ev c Hf; [reflexivity|].
  rewrite sweep_cons. cbn zeta. rewrite result_mk.
  destruct (items c !! k) as [v|] eqn:Hk.
  - rewrite (sweep_step_result _ _ _ _ _ Hk), (sweep_step_state _ _ _ _ _ Hk), Hf.
    rewrite (bool_decide_eq_false_2 (is_Some None)) by (intros [? [=]]).
    rewrite andb_false_r.
    apply IH. destruct (expired_inline v now); [reflexivity | exact Hf].
  - rewrite result_mk, state_mk. by apply IH.
Qed.

Lemma DeleteExpired_nothing_expired now order c :
  (forall j (v : Item T), items c !! j = Some v -> expired_inline v now = false) ->
  DeleteExpired now order c = (tt, c, [EvLock; EvUnlock]).
Proof.
  intros Hnone. rewrite (run_eta (DeleteExpired now order c)).
  rewrite DeleteExpired_state, DeleteExpired_trace.
  rewrite (sweep_nothing_expired now order [] c Hnone), state_mk, result_mk.
  destruct (result (DeleteExpired now order c)).
  destruct (onEvicted c); reflexivity.
Qed.

(** X12.  With both loops visiting every key, the map that DeleteExpired
    leaves is the map that Items returns at the same clock reading.  So
    ItemCount after the sweep is the number of unexpired entries, it is at
    most the count before, and no entry left has a positive expiration
    instant before the clock. *)
Theorem DeleteExpired_leaves_the_snapshot c now (order order' : list string)
    (Hdom : dom (items c) = list_to_set order)
    (Hdom' : dom (items c) = list_to_set order') :
  let c' := state (DeleteExpired now order c) in
  items c' = result (Items now order' c) /\
  result (ItemCount c') = size (result (Items now order' c)) /\
  (result (ItemCount c') <= result (ItemCount c))%nat /\
  (forall j (v : Item T), items c' !! j = Some v -> ~ 0 < Expiration v < now).
Proof.
  intros c'. subst c'.
  assert (Hin : forall j, is_Some (items c !! j) -> j ∈ order).
  { intros j Hj. apply elem_of_dom in Hj. rewrite Hdom in Hj.
    by apply elem_of_list_to_set in Hj. }
  assert (Hlook : forall j, items (state (DeleteExpired now order c)) !! j =
            match items c !! j with
            | Some v => if expired_inline v now then None else Some v
            | None => None
            end).
  { intros j. rewrite DeleteExpired_lookup.
    destruct (items c !! j) as [v|] eqn:Hj; [|reflexivity].
    rewrite bool_decide_eq_true_2 by (apply Hin; rewrite Hj; eauto).
    reflexivity. }
  assert (Heq : items (state (DeleteExpired now order c)) =
                result (Items now order' c)).
  { apply map_eq. intros j. by rewrite Hlook, Items_lookup. }
  split; [exact Heq|]. rewrite !ItemCount_result.
  split; [by rewrite Heq|]. split.
  - apply map_subseteq_size, map_subseteq_spec. intros j v. rewrite Hlook.
    destruct (items c !! j) as [w|]; [|discriminate].
    destruct (expired_inline w now); [discriminate | auto].
  - intros j v. rewrite Hlook.
    destruct (items c !! j) as [w|]; [|discriminate].
    destruct (expired_inline w now) eqn:He; [discriminate|].
    intros [= <-]. rewrite <- expired_inline_spec. by rewrite He.
Qed.

(** X13.  After a run of DeleteExpired that visited every key, a second run
    at the same or an earlier clock reading, in any order, removes nothing
    and calls nothing: it only takes and releases the lock. *)
Theorem DeleteExpired_twice_is_once c now now' (order order' : list string)
    (Hdom : dom (items c) = list_to_set order)
    (Hle : now' <= now) :
  DeleteExpired now' order' (state (DeleteExpired now order c)) =
    (tt, state (DeleteExpired now order c), [EvLock; EvUnlock]).
Proof.
  apply DeleteExpired_nothing_expired. intros j v.
  rewrite DeleteExpired_lookup.
  destruct (items c !! j) as [w|] eqn:Hj; [|discriminate].
  rewrite bool_decide_eq_true_2.
  - cbn [andb]. destruct (expired_inline w now) eqn:He; [discriminate|].
    intros [= <-]. apply not_true_iff_false. intros He'.
    rewrite (expired_inline_mono w now' now Hle He') in He. discriminate.
  - assert (Hin : j ∈ dom (items c)) by (apply elem_of_dom; eauto).
    rewrite Hdom in Hin. by apply elem_of_list_to_set in Hin.
Qed.



(** X15.  [OnEvicted(f)] replaces the callback and nothing else, and both
    eviction paths then use it: a Delete of a stored key calls [f] with the
    key and its value, and a DeleteExpired that visits each key at most
    once calls [f] for every entry it removes, in visiting order; when [f]
    is nil neither calls anything. *)
Theorem OnEvicted_installs_the_callback c (f : option F) k (v : Item T)
    now (order : list string)
    (Hk : items c !! k = Some v)
    (Hnd : NoDup order) :
  let c' := state (OnEvicted f c) in
  items c' = items c /\
  defaultExpiration c' = defaultExpiration c /\
  onEvicted c' = f /\
  trace (OnEvicted f c) = [EvLock; EvUnlock] /\
  trace (Delete k c') =
    EvLock :: EvUnlock ::
    match f with
    | Some g => [EvEvicted g k (Object v)]
    | None => []
    end /\
  trace (DeleteExpired now order c') =
    EvLock :: EvUnlock ::
    match f with
    | Some g => map (fun kv => EvEvicted g kv.1 kv.2)
                    (expired_entries (items c) now order)
    | None => []
    end.
Proof.
  intros c'. subst c'.
  split; [reflexivity|]. split; [reflexivity|]. split; [reflexivity|].
  split; [reflexivity|]. split.
  - rewrite Delete_trace. cbn. by rewrite Hk.
  - rewrite DeleteExpired_trace, sweep_result by done.
    change (onEvicted (state (OnEvicted f c))) with f.
    change (items (state (OnEvicted f c))) with (items c).
    destruct f as [g|]; [|reflexivity].
    by rewrite bool_decide_eq_true_2 by eauto.
Qed.

(** X16.  Add over an entry that is still in the map but expired overwrites
    it in place: it succeeds, stores the new value with the expiration that
    Set computes, leaves the number of entries unchanged, and the eviction
    callback is not called for the value that is dropped. *)
Theorem Add_over_expired_entry_is_silent c k x d now now_set (item : Item T)
    (Hk : items c !! k = Some item)
    (Hexp : 0 < Expiration item < now) :
  let r := Add k x d now now_set c in
  result r = None /\
  trace r = [EvLock; EvUnlock] /\
  evictions (trace r) = [] /\
  items (state r) !! k =
    Some (mkItem x (expiration_of (defaultExpiration c) d now_set)) /\
  result (ItemCount (state r)) = result (ItemCount c) /\
  onEvicted (state r) = onEvicted c.
Proof.
  intros r. subst r.
  assert (Hl : live c k now = false).
  { rewrite (live_lookup c k now item Hk).
    apply expired_inline_spec in Hexp. by rewrite Hexp. }
  rewrite Add_run, Hl, result_mk, state_mk, trace_mk, Set_state.
  rewrite !ItemCount_result. cbn [items onEvicted].
  repeat split; [apply lookup_insert_eq|].
  apply map_size_insert_Some. rewrite Hk. eauto.
Qed.

Lemma Run_tick now order rest c :
  Run (Tick now order :: rest) c =
    bind (DeleteExpired now order) (fun _ => Run (T := T) (F := F) rest) c.
Proof. reflexivity. Qed.

Lemma callbacks_unlocked_app_evictions (f : F) (evs : list (string * T))
    (tr : list (Event T F)) :
  callbacks_unlocked false (map (fun kv => EvEvicted f kv.1 kv.2) evs ++ tr) =
  callbacks_unlocked false tr.
Proof. induction evs as [|kv evs IH]; [reflexivity | exact IH]. Qed.

Lemma callbacks_unlocked_after_DeleteExpired now order c (tr : list (Event T F)) :
  callbacks_unlocked false (trace (DeleteExpired now order c) ++ tr) =
  callbacks_unlocked false tr.
Proof.
  rewrite DeleteExpired_trace. cbn [app callbacks_unlocked].
  destruct (onEvicted c) as [f|] eqn:Hf.
  - apply callbacks_unlocked_app_evictions.
  - by rewrite (sweep_no_callback now order [] c Hf).
Qed.

(** X17.  The janitor cannot be observed through Get: after it has handled
    any signals whose ticks are not later than the clock of the Get, Get
    returns what it returns on the original cache; and the janitor calls
    the eviction callback only while the mutex is released. *)
Theorem janitor_invisible_to_Get (signals : list Signal) : forall c k later,
  ticks_by later signals = true ->
  result (Get k later (state (Run signals c))) = result (Get k later c) /\
  callbacks_unlocked false (trace (Run signals c)) = true.
Proof.
  induction signals as [|[now order|] rest IH]; intros c k later Hticks.
  - split; reflexivity.
  - cbn in Hticks. apply andb_true_iff in Hticks as [Hnow Hrest].
    apply Z.leb_le in Hnow.
    rewrite Run_tick, state_bind, trace_bind.
    destruct (IH (state (DeleteExpired now order c)) k later Hrest) as [-> Hcb].
    split; [by apply DeleteExpired_Get_later|].
    by rewrite callbacks_unlocked_after_DeleteExpired.
  - split; reflexivity.
Qed.

(** X18.  The janitor handles nothing after the stop signal: the signals that
    follow it change neither the cache nor the trace. *)
Theorem janitor_stops_at_Stop (before after : list Signal) : forall c,
  Run (before ++ Stop :: after) c = Run before c.
Proof.
  induction before as [|[now order|] rest IH]; intros c; [reflexivity| |reflexivity].
  cbn [app]. rewrite !Run_tick. unfold bind. by rewrite IH.
Qed.

End More.

Section MoreNumeric.

Context {F : Type}.

Lemma wrap_add_sub kind a b :
  in_range kind a -> wrap kind (wrap kind (a + b) - b) = a.
Proof. by_kind kind; intros; Z.div_mod_to_equations; lia. Qed.

Lemma wrap_add_add kind a b d :
  wrap kind (wrap kind (a + b) + d) = wrap kind (a + b + d).
Proof. by_kind kind; Z.div_mod_to_equations; lia. Qed.

Lemma Increment_live_state {T} `{!Numeric T} (c : cache T F) k (v : Item T) n now :
  items c !! k = Some v -> Expired v now = false ->
  Increment k n now c =
    (Some (num_add (Object v) n), None,
     mkCache (defaultExpiration c)
       (<[k := mkItem (num_add (Object v) n) (Expiration v)]> (items c))
       (onEvicted c),
     [EvLock; EvUnlock]).
Proof. intros Hk He. by rewrite Increment_run, Hk, He. Qed.

Lemma Decrement_live_state {T} `{!Numeric T} (c : cache T F) k (v : Item T) n now :
  items c !! k = Some v -> Expired v now = false ->
  Decrement k n now c =
    (Some (num_sub (Object v) n), None,
     mkCache (defaultExpiration c)
       (<[k := mkItem (num_sub (Object v) n) (Expiration v)]> (items c))
       (onEvicted c),
     [EvLock; EvUnlock]).
Proof. intros Hk He. by rewrite Decrement_run, Hk, He. Qed.

(** X19.  For every integer kind, Increment by [n] followed by Decrement by
    [n] on a live entry whose value is in the kind's range returns the
    original value and leaves the cache exactly as it was, also when the
    increment wrapped around. *)
Theorem Increment_then_Decrement_restores kind (c : cache (fixed kind) F)
    k (v : Item (fixed kind)) (n : fixed kind) now later
    (Hk : items c !! k = Some v)
    (Hlive : Expired v now = false)
    (Hlive' : Expired v later = false)
    (Hrange : in_range kind (fval (Object v))) :
  let c' := state (Increment k n now c) in
  result (Decrement k n later c') = (Some (Object v), None) /\
  state (Decrement k n later c') = c.
Proof.
  intros c'. subst c'.
  rewrite (Increment_live_state c k v n now Hk Hlive), state_mk.
  set (c1 := mkCache _ _ _).
  assert (Hk1 : items c1 !! k =
                Some (mkItem (num_add (Object v) n) (Expiration v)))
    by apply lookup_insert_eq.
  rewrite (Decrement_live_state c1 k _ n later Hk1 Hlive').
  rewrite result_mk, state_mk. cbn [Object Expiration].
  assert (Hback : num_sub (num_add (Object v) n) n = Object v).
  { destruct v as [[a] e], n as [b]. cbn in *. f_equal.
    by apply wrap_add_sub. }
  rewrite Hback. split; [reflexivity|].
  subst c1. cbn [items defaultExpiration onEvicted].
  rewrite insert_insert_eq.
  replace (mkItem (Object v) (Expiration v)) with v by (by destruct v).
  rewrite (insert_id _ _ _ Hk). by destruct c.
Qed.

(** X20.  Two Increments on a live entry add up modulo the width: the second
    returns the wrapped sum of the value and both amounts, and the resulting
    cache does not depend on the order of the two amounts. *)
Theorem Increment_twice_adds_up kind (c : cache (fixed kind) F)
    k (v : Item (fixed kind)) (n m : fixed kind) now later
    (Hk : items c !! k = Some v)
    (Hlive : Expired v now = false)
    (Hlive' : Expired v later = false) :
  result (Increment k m later (state (Increment k n now c))) =
    (Some (Fix (wrap kind (fval (Object v) + fval n + fval m))), None) /\
  state (Increment k m later (state (Increment k n now c))) =
  state (Increment k n later (state (Increment k m now c))).
Proof.
  assert (Htwice : forall a b : fixed kind,
            Increment k b later (state (Increment k a now c)) =
            (Some (Fix (wrap kind (fval (Object v) + fval a + fval b))), None,
             mkCache (defaultExpiration c)
               (<[k := mkItem (Fix (wrap kind (fval (Object v) + fval a + fval b)))
                         (Expiration v)]> (items c))
               (onEvicted c),
             [EvLock; EvUnlock])).
  { intros a b.
    rewrite (Increment_live_state c k v a now Hk Hlive), state_mk.
    set (c1 := mkCache _ _ _).
    assert (Hk1 : items c1 !! k =
                  Some (mkItem (num_add (Object v) a) (Expiration v)))
      by apply lookup_insert_eq.
    rewrite (Increment_live_state c1 k _ b later Hk1 Hlive').
    subst c1. cbn [items defaultExpiration onEvicted Object Expiration].
    rewrite insert_insert_eq. cbn [num_add fixed_Numeric fval].
    by rewrite wrap_add_add. }
  rewrite !Htwice, result_mk, !state_mk. split; [reflexivity|].
  by replace (fval (Object v) + fval n + fval m)
       with (fval (Object v) + fval m + fval n) by lia.
Qed.

Context {T : Type} `{!Zero T} `{!Numeric T}.

(** X21.  An entry whose expiration instant is negative is treated in two
    ways: Get and GetWithExpiration find it (with no expiration time), Add
    refuses to overwrite it and DeleteExpired keeps it, yet Increment and
    Decrement, which test [Item.Expired], report it as not found. *)
Theorem negative_expiration_found_but_not_countable (c : cache T F) k
    (v : Item T) (n : T) x d now now_set (order : list string)
    (Hk : items c !! k = Some v)
    (Hneg : Expiration v < 0)
    (Hnow : 0 <= now) :
  result (Get k now c) = (Some (Object v), true) /\
  result (GetWithExpiration k now c) = (Some (Object v), None, true) /\
  result (Increment k n now c) = (None, Some (KeyNotFound_Increment k)) /\
  result (Decrement k n now c) = (None, Some KeyNotFound_Decrement) /\
  result (Add k x d now now_set c) = Some (KeyExists k) /\
  items (state (DeleteExpired now order c)) !! k = Some v.
Proof.
  assert (He : expired_inline v now = false).
  { apply not_true_iff_false. rewrite expired_inline_spec. lia. }
  assert (HE : Expired v now = true) by (apply Expired_spec; lia).
  rewrite Get_result, GetWithExpiration_run, Increment_run, Decrement_run,
    Add_run, DeleteExpired_lookup, (live_lookup c k now v Hk), Hk, He, HE.
  rewrite andb_false_r, !result_mk.
  destruct (Z.gtb_spec (Expiration v) 0); [lia|]. repeat split.
Qed.

End MoreNumeric.

(** * The claims at concrete caches *)

Import Examples.

Section Witnesses.

Local Open Scope string_scope.

Lemma seeded_order_NoDup : NoDup ["fresh"; "kept"; "stale"].
Proof.
  apply (bool_decide_unpack (NoDup ["fresh"; "kept"; "stale"])).
  vm_compute. exact I.
Defined.

Lemma seeded_order_dom :
  dom (items seeded) = list_to_set ["fresh"; "kept"; "stale"].
Proof. vm_compute. reflexivity. Defined.

(** C1 at [seeded]: "fresh" is live at time 100, so Add fails, the cache is
    unchanged and Get still returns 1. *)
Lemma Add_only_without_live_entry_witness :
  live seeded "fresh" 100 = true /\
  state (Add "fresh" 9 0 100 100 seeded) = seeded /\
  (forall later, result (Get "fresh" later (state (Add "fresh" 9 0 100 100 seeded)))
                 = result (Get "fresh" later seeded)) /\
  exists item, items seeded !! "fresh" = Some item /\
    result (Get "fresh" 100 (state (Add "fresh" 9 0 100 100 seeded)))
    = (Some (Object item), true).
Proof.
  split; [vm_compute; reflexivity|].
  apply (proj2 (proj2 (proj2 (proj2
           (Add_only_without_live_entry seeded "fresh" 9 0 100 100))))).
  vm_compute. reflexivity.
Defined.

(** C3 at [counters] and [bytes]: the int8 counter at 127 wraps to -128 and
    the uint8 at 0 wraps to 255. *)
Lemma Increment_Decrement_wrap_around_witness :
  (items counters !! "hits" = Some (mkItem (Fix 127) 0) /\
   Expired (mkItem (Fix 127 : int8) 0) 100 = false /\
   result (Increment "hits" (Fix 1) 100 counters) = (Some (Fix (-128)), None) /\
   items (state (Increment "hits" (Fix 1) 100 counters)) !! "hits" =
     Some (mkItem (Fix (-128)) 0)) /\
  (items bytes !! "b" = Some (mkItem (Fix 0) 0) /\
   Expired (mkItem (Fix 0 : uint8) 0) 100 = false /\
   result (Decrement "b" (Fix 1) 100 bytes) = (Some (Fix 255), None) /\
   items (state (Decrement "b" (Fix 1) 100 bytes)) !! "b" =
     Some (mkItem (Fix 255) 0)).
Proof.
  split.
  - split; [vm_compute; reflexivity|]. split; [reflexivity|].
    apply (proj1 (Increment_Decrement_wrap_around (F := string))
             counters "hits" (mkItem (Fix 127) 0) 100);
      vm_compute; reflexivity.
  - split; [vm_compute; reflexivity|]. split; [reflexivity|].
    apply (proj1 (proj2 (Increment_Decrement_wrap_around (F := string)))
             bytes "b" (mkItem (Fix 0) 0) 100);
      vm_compute; reflexivity.
Defined.

(** C4 at [counters]: "gone" expired at 50, so Increment at 100 fails and
    changes nothing. *)
Lemma Increment_Decrement_fail_iff_absent_or_expired_witness :
  (items counters !! "gone" = None \/
   exists v, items counters !! "gone" = Some v /\ Expired v 100 = true) /\
  state (Increment "gone" (Fix 1) 100 counters) = counters /\
  (result (Increment "gone" (Fix 1) 100 counters)).1 = None.
Proof.
  assert (H : items counters !! "gone" = None \/
              exists v, items counters !! "gone" = Some v /\
                        Expired v 100 = true).
  { right. exists (mkItem (Fix 5) 50). split; vm_compute; reflexivity. }
  split; [exact H|].
  exact (proj1 (proj2 (proj2 (proj2 (proj2
           (Increment_Decrement_fail_iff_absent_or_expired
              counters "gone" (Fix 1) 100))))) H).
Defined.

(** C5 at [seeded]: "stale" expired at 50 and Get at 100 does not find it. *)
Lemma Get_lazy_expiration_witness :
  (items seeded !! "stale" = None \/
   exists item, items seeded !! "stale" = Some item /\
                0 < Expiration item < 100) /\
  result (Get "stale" 100 seeded) = (None, false).
Proof.
  assert (H : items seeded !! "stale" = None \/
              exists item, items seeded !! "stale" = Some item /\
                           0 < Expiration item < 100).
  { right. exists (mkItem 2 50). split; [vm_compute; reflexivity|]. cbn. lia. }
  split; [exact H|].
  exact (proj2 (proj1 (Get_lazy_expiration seeded "stale" 100)) H).
Defined.

(** C6 at [seeded], time 100: only "stale" goes, and the callback is called
    once, for it. *)
Lemma DeleteExpired_removes_positive_past_witness :
  NoDup ["fresh"; "kept"; "stale"] /\
  dom (items seeded) = list_to_set ["fresh"; "kept"; "stale"] /\
  callbacks_unlocked false
    (trace (DeleteExpired 100 ["fresh"; "kept"; "stale"] seeded)) = true /\
  (forall k, items seeded !! k = None ->
     items (state (DeleteExpired 100 ["fresh"; "kept"; "stale"] seeded)) !! k
     = None).
Proof.
  split; [exact seeded_order_NoDup|]. split; [exact seeded_order_dom|].
  pose proof (DeleteExpired_removes_positive_past seeded 100
                ["fresh"; "kept"; "stale"]
                seeded_order_NoDup seeded_order_dom) as H.
  cbv zeta in H. destruct H as (_ & Habs & _ & _ & Hunlocked & _).
  split; [exact Hunlocked | exact Habs].
Defined.

(** C8 at [counters]: the successful Increment of "hits" keeps its
    expiration and the other entry. *)
Lemma Increment_Decrement_touch_only_the_value_witness :
  (result (Increment "hits" (Fix 1) 100 counters)).2 = None /\
  exists v, items counters !! "hits" = Some v /\
    (result (Increment "hits" (Fix 1) 100 counters)).1
      = Some (num_add (Object v) (Fix 1)) /\
    items (state (Increment "hits" (Fix 1) 100 counters)) !! "hits"
      = Some (mkItem (num_add (Object v) (Fix 1)) (Expiration v)) /\
    (forall j, j <> "hits" ->
       items (state (Increment "hits" (Fix 1) 100 counters)) !! j
       = items counters !! j) /\
    defaultExpiration (state (Increment "hits" (Fix 1) 100 counters))
      = defaultExpiration counters /\
    onEvicted (state (Increment "hits" (Fix 1) 100 counters))
      = onEvicted counters.
Proof.
  assert (H : (result (Increment "hits" (Fix 1) 100 counters)).2 = None)
    by (vm_compute; reflexivity).
  split; [exact H|].
  exact (proj1 (Increment_Decrement_touch_only_the_value
                  counters "hits" (Fix 1) 100) H).
Defined.

(** C10 at [seeded]: Delete removes the expired "stale" and reports it. *)
Lemma Delete_removes_expired_entry_witness :
  items seeded !! "stale" = Some (mkItem 2 50) /\
  0 < Expiration (mkItem 2 50) < 100 /\
  items (state (Delete "stale" seeded)) !! "stale" = None /\
  trace (Delete "stale" seeded) = [EvLock; EvUnlock; EvEvicted "log" "stale" 2] /\
  result (Get "stale" 100 seeded) = (None, false).
Proof.
  assert (Hk : items seeded !! "stale" = Some (mkItem 2 50))
    by (vm_compute; reflexivity).
  assert (He : 0 < Expiration (mkItem 2 50) < 100) by (cbn; lia).
  split; [exact Hk|]. split; [exact He|].
  destruct (Delete_removes_expired_entry seeded "stale" (mkItem 2 50) 100
              9 0 100 Hk He) as (Hgone & _ & Hcall & _ & Hget & _).
  split; [exact Hgone|]. split; [|exact Hget].
  exact (proj1 (Hcall "log" eq_refl)).
Defined.

(** A negative expiration instant also comes out of Set itself: a duration
    of about 292 years added to a clock of 2026 passes the int64 range and
    wraps. *)
Example Set_far_future_wraps_negative :
  let c : cache Z string :=
    state (Set_ "far" 1 (2 ^ 63 - 1) 1790000000000000000 (newCache 0 ∅)) in
  items c !! "far" = Some (mkItem 1 (-7433372036854775809)).
Proof. vm_compute. reflexivity. Qed.

(** C6 as stated fails: an entry whose expiration instant is -1 is non-zero
    and strictly earlier than the clock, and DeleteExpired keeps it. *)
Lemma DeleteExpired_keeps_negative_expiration :
  ~ (forall (c : cache Z string) (now : Z) (order : list string),
       NoDup order -> dom (items c) = list_to_set order ->
       forall k v, items c !! k = Some v ->
         Expiration v <> 0 -> Expiration v < now ->
         items (state (DeleteExpired now order c)) !! k = None).
Proof.
  intros H.
  assert (Hnd : NoDup ["old"]).
  { apply (bool_decide_unpack (NoDup ["old"])). vm_compute. exact I. }
  assert (Hdom : dom (items before_epoch) = list_to_set ["old"])
    by (vm_compute; reflexivity).
  specialize (H before_epoch 100 ["old"] Hnd Hdom "old" (mkItem 1 (-1))).
  assert (Hkept : items (state (DeleteExpired 100 ["old"] before_epoch)) !! "old"
                  = Some (mkItem 1 (-1))) by (vm_compute; reflexivity).
  rewrite H in Hkept; [discriminate | vm_compute; reflexivity | cbn; lia | cbn; lia].
Qed.

End Witnesses.

(** * The further properties at concrete caches *)

Section MoreWitnesses.

Local Open Scope string_scope.

Lemma sessions_order_dom :
  dom (items sessions) = list_to_set ["alice"; "bob"; "carol"].
Proof. vm_compute. reflexivity. Defined.

Lemma sessions_reverse_dom :
  dom (items sessions) = list_to_set ["carol"; "bob"; "alice"].
Proof. vm_compute. reflexivity. Defined.

(** X1 at [sessions]: "bob" expired at 50, so Replace at 100 fails. *)
Lemma Replace_only_with_live_entry_witness :
  items sessions !! "bob" = Some (mkItem 20 50) /\
  0 < Expiration (mkItem 20 50) < 100 /\
  result (Replace "bob" 21 0 100 100 sessions)
  = Some (KeyNotFound_Replace "bob").
Proof.
  assert (Hk : items sessions !! "bob" = Some (mkItem 20 50))
    by (vm_compute; reflexivity).
  assert (He : 0 < Expiration (mkItem 20 50) < 100) by (cbn; lia).
  split; [exact Hk|]. split; [exact He|].
  exact (proj1 (proj2 (proj2 (proj2
           (Replace_only_with_live_entry sessions "bob" 21 0 100 100))))
           (mkItem 20 50) Hk He).
Defined.

(** X3 at [sessions]: SetDefault at 1000 gives one minute. *)
Lemma Set_then_Get_until_expiry_witness :
  60000000000 =
    (if (0 =? DefaultExpiration)%Z then defaultExpiration sessions else 0) /\
  0 < 60000000000 /\ 0 <= 1000 /\ 1000 + 60000000000 < 2 ^ 63 /\
  items (state (Set_ "dave" 40 0 1000 sessions)) !! "dave"
  = Some (mkItem 40 (1000 + 60000000000)).
Proof.
  assert (Hd : 60000000000 =
               (if (0 =? DefaultExpiration)%Z then defaultExpiration sessions else 0))
    by reflexivity.
  assert (Hp : 0 < 60000000000) by lia.
  assert (Hn : 0 <= 1000) by lia.
  assert (Hf : 1000 + 60000000000 < 2 ^ 63) by reflexivity.
  split; [exact Hd|]. split; [exact Hp|]. split; [exact Hn|].
  split; [exact Hf|].
  exact (proj1 (Set_then_Get_until_expiry sessions "dave" 40 0 60000000000
                  1000 2000 Hd Hp Hn Hf)).
Defined.

(** X4 at [sessions]: the longest duration, set in 2026. *)
Lemma Set_overflow_never_expires_witness :
  2 ^ 63 - 1 =
    (if (2 ^ 63 - 1 =? DefaultExpiration)%Z
     then defaultExpiration sessions else 2 ^ 63 - 1) /\
  0 < 2 ^ 63 - 1 < 2 ^ 63 /\
  0 <= 1790000000000000000 < 2 ^ 63 /\
  2 ^ 63 <= 1790000000000000000 + (2 ^ 63 - 1) /\
  result (Get "far" 5000000000000000000
            (state (Set_ "far" 1 (2 ^ 63 - 1) 1790000000000000000 sessions)))
  = (Some 1, true).
Proof.
  assert (Hd : 2 ^ 63 - 1 =
               (if (2 ^ 63 - 1 =? DefaultExpiration)%Z
                then defaultExpiration sessions else 2 ^ 63 - 1))
    by reflexivity.
  assert (Hp : 0 < 2 ^ 63 - 1 < 2 ^ 63) by (split; reflexivity).
  assert (Hn : 0 <= 1790000000000000000 < 2 ^ 63)
    by (split; [discriminate | reflexivity]).
  assert (Ho : 2 ^ 63 <= 1790000000000000000 + (2 ^ 63 - 1)) by discriminate.
  split; [exact Hd|]. split; [exact Hp|]. split; [exact Hn|].
  split; [exact Ho|].
  exact (proj1 (proj2 (proj2
           (Set_overflow_never_expires sessions "far" 1 (2 ^ 63 - 1)
              (2 ^ 63 - 1) 1790000000000000000 5000000000000000000 []
              Hd Hp Hn Ho)))).
Defined.

(** X5 at [sessions]: "alice" is returned with her expiration instant. *)
Lemma GetWithExpiration_agrees_with_Get_witness :
  (exists item, items sessions !! "alice" = Some item /\
                Expiration item = 500 /\ 0 < 500 /\ 100 <= 500) /\
  (result (GetWithExpiration "alice" 100 sessions)).1.2 = Some 500.
Proof.
  assert (H : exists item, items sessions !! "alice" = Some item /\
                Expiration item = 500 /\ 0 < 500 /\ 100 <= 500).
  { exists (mkItem 10 500). split; [vm_compute; reflexivity|].
    split; [reflexivity|]. lia. }
  split; [exact H|].
  exact (proj2 (proj1 (proj2
           (GetWithExpiration_agrees_with_Get sessions "alice" 100)) 500) H).
Defined.

(** X6 at [sessions]: "alice" found at 400 is found at 100. *)
Lemma Get_is_monotone_in_time_witness :
  100 <= 400 /\
  result (Get "alice" 400 sessions) = (Some 10, true) /\
  result (Get "alice" 100 sessions) = (Some 10, true).
Proof.
  assert (Hle : 100 <= 400) by lia.
  assert (Hf : result (Get "alice" 400 sessions) = (Some 10, true))
    by (vm_compute; reflexivity).
  split; [exact Hle|]. split; [exact Hf|].
  exact (proj1 (Get_is_monotone_in_time sessions "alice" 10 100 400 Hle) Hf).
Defined.

(** X7 at [sessions]: overwriting "bob" leaves "alice" alone. *)
Lemma Set_touches_one_key_witness :
  "alice" <> "bob" /\
  items (state (Set_ "bob" 21 0 100 sessions)) !! "alice"
  = items sessions !! "alice".
Proof.
  assert (Hne : "alice" <> "bob") by discriminate.
  split; [exact Hne|].
  exact (proj1 (Set_touches_one_key sessions "bob" 21 0 100) "alice" Hne).
Defined.

(** X8 at [sessions]: deleting a key that is not there. *)
Lemma Delete_forgets_the_key_witness :
  items sessions !! "zed" = None /\
  Delete "zed" sessions = (tt, sessions, [EvLock; EvUnlock]).
Proof.
  assert (Hk : items sessions !! "zed" = None) by (vm_compute; reflexivity).
  split; [exact Hk|].
  exact (proj1 (proj2 (proj2 (proj2
           (Delete_forgets_the_key sessions "zed" 0 0 100 100)))) Hk).
Defined.

(** X9 at [sessions], time 100: the snapshot does not depend on the order. *)
Lemma Items_is_the_live_snapshot_witness :
  dom (items sessions) = list_to_set ["alice"; "bob"; "carol"] /\
  dom (items sessions) = list_to_set ["carol"; "bob"; "alice"] /\
  result (Items 100 ["carol"; "bob"; "alice"] sessions)
  = result (Items 100 ["alice"; "bob"; "carol"] sessions).
Proof.
  split; [exact sessions_order_dom|]. split; [exact sessions_reverse_dom|].
  exact (proj1 (proj2 (proj2
           (Items_is_the_live_snapshot sessions 100 ["alice"; "bob"; "carol"]
              sessions_order_dom)))
           ["carol"; "bob"; "alice"] sessions_reverse_dom).
Defined.

(** X10 at [sessions]: the cache rebuilt from the snapshot taken at 100
    answers at 200 as the original does. *)
Lemma NewFrom_Items_round_trip_witness :
  dom (items sessions) = list_to_set ["alice"; "bob"; "carol"] /\
  100 <= 200 /\
  result (Get "alice" 200
            (newCache (F := string) 0
               (result (Items 100 ["alice"; "bob"; "carol"] sessions))))
  = result (Get "alice" 200 sessions).
Proof.
  assert (Hle : 100 <= 200) by lia.
  split; [exact sessions_order_dom|]. split; [exact Hle|].
  exact (NewFrom_Items_round_trip sessions 0 100 200 "alice"
           ["alice"; "bob"; "carol"] sessions_order_dom Hle).
Defined.

(** X11 at [sessions]: a sweep at 100 is not seen by Get at 200. *)
Lemma DeleteExpired_invisible_to_Get_witness :
  100 <= 200 /\
  result (Get "bob" 200
            (state (DeleteExpired 100 ["alice"; "bob"; "carol"] sessions)))
  = result (Get "bob" 200 sessions).
Proof.
  assert (Hle : 100 <= 200) by lia.
  split; [exact Hle|].
  exact (proj1 (DeleteExpired_invisible_to_Get sessions 100 200 "bob"
                  ["alice"; "bob"; "carol"] Hle)).
Defined.

(** X12 at [sessions]: the sweep at 100 leaves the snapshot of 100. *)
Lemma DeleteExpired_leaves_the_snapshot_witness :
  dom (items sessions) = list_to_set ["alice"; "bob"; "carol"] /\
  dom (items sessions) = list_to_set ["carol"; "bob"; "alice"] /\
  items (state (DeleteExpired 100 ["alice"; "bob"; "carol"] sessions))
  = result (Items 100 ["carol"; "bob"; "alice"] sessions).
Proof.
  split; [exact sessions_order_dom|]. split; [exact sessions_reverse_dom|].
  exact (proj1 (DeleteExpired_leaves_the_snapshot sessions 100
                  ["alice"; "bob"; "carol"] ["carol"; "bob"; "alice"]
                  sessions_order_dom sessions_reverse_dom)).
Defined.

(** X13 at [sessions]: a second sweep, at 90, after the one at 100. *)
Lemma DeleteExpired_twice_is_once_witness :
  dom (items sessions) = list_to_set ["alice"; "bob"; "carol"] /\
  90 <= 100 /\
  DeleteExpired 90 ["bob"; "alice"]
    (state (DeleteExpired 100 ["alice"; "bob"; "carol"] sessions))
  = (tt, state (DeleteExpired 100 ["alice"; "bob"; "carol"] sessions),
     [EvLock; EvUnlock]).
Proof.
  assert (Hle : 90 <= 100) by lia.
  split; [exact sessions_order_dom|]. split; [exact Hle|].
  exact (DeleteExpired_twice_is_once sessions 100 90
           ["alice"; "bob"; "carol"] ["bob"; "alice"] sessions_order_dom Hle).
Defined.


(** X15 at [sessions]: a new callback is the one Delete calls. *)
Lemma OnEvicted_installs_the_callback_witness :
  items sessions !! "carol" = Some (mkItem 30 0) /\
  NoDup ["alice"; "bob"; "carol"] /\
  trace (Delete "carol" (state (OnEvicted (Some "metrics") sessions)))
  = [EvLock; EvUnlock; EvEvicted "metrics" "carol" 30] /\
  trace (DeleteExpired 100 ["alice"; "bob"; "carol"]
           (state (OnEvicted (Some "metrics") sessions)))
  = [EvLock; EvUnlock; EvEvicted "metrics" "bob" 20].
Proof.
  assert (Hk : items sessions !! "carol" = Some (mkItem 30 0))
    by (vm_compute; reflexivity).
  assert (Hnd : NoDup ["alice"; "bob"; "carol"]).
  { apply (bool_decide_unpack (NoDup ["alice"; "bob"; "carol"])).
    vm_compute. exact I. }
  split; [exact Hk|]. split; [exact Hnd|].
  destruct (OnEvicted_installs_the_callback sessions (Some "metrics")
              "carol" (mkItem 30 0) 100 ["alice"; "bob"; "carol"] Hk Hnd)
    as (_ & _ & _ & _ & Hd & He).
  split; [exact Hd|]. rewrite He. vm_compute. reflexivity.
Defined.

(** X16 at [sessions]: Add over the expired "bob". *)
Lemma Add_over_expired_entry_is_silent_witness :
  items sessions !! "bob" = Some (mkItem 20 50) /\
  0 < Expiration (mkItem 20 50) < 100 /\
  result (Add "bob" 21 (-1) 100 100 sessions) = None /\
  trace (Add "bob" 21 (-1) 100 100 sessions) = [EvLock; EvUnlock].
Proof.
  assert (Hk : items sessions !! "bob" = Some (mkItem 20 50))
    by (vm_compute; reflexivity).
  assert (He : 0 < Expiration (mkItem 20 50) < 100) by (cbn; lia).
  split; [exact Hk|]. split; [exact He|].
  destruct (Add_over_expired_entry_is_silent sessions "bob" 21 (-1) 100 100
              (mkItem 20 50) Hk He) as (Hr & Ht & _).
  split; [exact Hr | exact Ht].
Defined.

(** X17 at [sessions]: two ticks and a stop, then a Get at 100. *)
Lemma janitor_invisible_to_Get_witness :
  ticks_by 100 [Tick 60 ["alice"; "bob"; "carol"];
                Tick 100 ["carol"; "alice"]; Stop] = true /\
  result (Get "alice" 100
            (state (Run [Tick 60 ["alice"; "bob"; "carol"];
                         Tick 100 ["carol"; "alice"]; Stop] sessions)))
  = result (Get "alice" 100 sessions).
Proof.
  assert (Ht : ticks_by 100 [Tick 60 ["alice"; "bob"; "carol"];
                             Tick 100 ["carol"; "alice"]; Stop] = true)
    by reflexivity.
  split; [exact Ht|].
  exact (proj1 (janitor_invisible_to_Get _ sessions "alice" 100 Ht)).
Defined.

(** X19 at [gauges]: 100 + 100 wraps to -56, and - 100 gives 100 back. *)
Lemma Increment_then_Decrement_restores_witness :
  items gauges !! "load" = Some (mkItem (Fix 100) 0) /\
  Expired (mkItem (Fix 100 : int8) 0) 10 = false /\
  Expired (mkItem (Fix 100 : int8) 0) 20 = false /\
  in_range KInt8 (fval (Object (mkItem (Fix 100 : int8) 0))) /\
  result (Increment "load" (Fix 100) 10 gauges) = (Some (Fix (-56)), None) /\
  result (Decrement "load" (Fix 100) 20
            (state (Increment "load" (Fix 100) 10 gauges)))
  = (Some (Fix 100), None) /\
  state (Decrement "load" (Fix 100) 20
           (state (Increment "load" (Fix 100) 10 gauges))) = gauges.
Proof.
  assert (Hk : items gauges !! "load" = Some (mkItem (Fix 100) 0))
    by (vm_compute; reflexivity).
  assert (H1 : Expired (mkItem (Fix 100 : int8) 0) 10 = false) by reflexivity.
  assert (H2 : Expired (mkItem (Fix 100 : int8) 0) 20 = false) by reflexivity.
  assert (Hr : in_range KInt8 (fval (Object (mkItem (Fix 100 : int8) 0))))
    by (split; discriminate).
  split; [exact Hk|]. split; [exact H1|]. split; [exact H2|].
  split; [exact Hr|]. split; [vm_compute; reflexivity|].
  exact (Increment_then_Decrement_restores KInt8 gauges "load"
           (mkItem (Fix 100) 0) (Fix 100) 10 20 Hk H1 H2 Hr).
Defined.

(** X20 at [gauges]: 100 + 100 + 100 is 44 modulo 256. *)
Lemma Increment_twice_adds_up_witness :
  items gauges !! "load" = Some (mkItem (Fix 100) 0) /\
  Expired (mkItem (Fix 100 : int8) 0) 10 = false /\
  Expired (mkItem (Fix 100 : int8) 0) 20 = false /\
  result (Increment "load" (Fix 100) 20
            (state (Increment "load" (Fix 100) 10 gauges)))
  = (Some (Fix (wrap KInt8 (100 + 100 + 100))), None).
Proof.
  assert (Hk : items gauges !! "load" = Some (mkItem (Fix 100) 0))
    by (vm_compute; reflexivity).
  assert (H1 : Expired (mkItem (Fix 100 : int8) 0) 10 = false) by reflexivity.
  assert (H2 : Expired (mkItem (Fix 100 : int8) 0) 20 = false) by reflexivity.
  split; [exact Hk|]. split; [exact H1|]. split; [exact H2|].
  exact (proj1 (Increment_twice_adds_up KInt8 gauges "load"
                  (mkItem (Fix 100) 0) (Fix 100) (Fix 100) 10 20 Hk H1 H2)).
Defined.

(** X21 at [gauges]: "ancient" has expiration -5. *)
Lemma negative_expiration_found_but_not_countable_witness :
  items gauges !! "ancient" = Some (mkItem (Fix 7) (-5)) /\
  Expiration (mkItem (Fix 7 : int8) (-5)) < 0 /\
  0 <= 100 /\
  result (Get "ancient" 100 gauges) = (Some (Fix 7), true) /\
  result (Increment "ancient" (Fix 1) 100 gauges)
  = (None, Some (KeyNotFound_Increment "ancient")).
Proof.
  assert (Hk : items gauges !! "ancient" = Some (mkItem (Fix 7) (-5)))
    by (vm_compute; reflexivity).
  assert (Hn : Expiration (mkItem (Fix 7 : int8) (-5)) < 0) by reflexivity.
  assert (H0 : 0 <= 100) by lia.
  split; [exact Hk|]. split; [exact Hn|]. split; [exact H0|].
  destruct (negative_expiration_found_but_not_countable gauges "ancient"
              (mkItem (Fix 7) (-5)) (Fix 1) (Fix 9) 0 100 100
              ["load"; "ancient"] Hk Hn H0) as (Hg & _ & Hi & _).
  split; [exact Hg | exact Hi].
Defined.

End MoreWitnesses.
